(** * WebSocket ADB bridge: a model of [websocket-adb-bridge.py]

    The bridge object ([WebSocketADBBridge]) and the world it acts on
    (sockets, the upstream session, the tasks handed to the event loop)
    are one record, [State].  Every method of the class is a computation
    in a state-and-exception monad over it, written with the same
    [try] / [except] structure as the source.  The blocking calls whose
    result is decided outside the program ([accept], [recv], [send],
    [websocket.recv]) take their outcome from a script or an oracle. *)

From Stdlib Require Import List Bool Arith Lia String Ascii.
From Stdlib.Strings Require Import Byte.
Import ListNotations.

(** ** Sockets, resources and events *)

(** A socket object is known by its identity only: sockets define no
    [__eq__], so [list.remove] and [in] tell them apart by identity. *)
Definition sock := nat.

Definition bytes := list byte.

(** What the operating system holds for the bridge. *)
Inductive resource :=
| Socket (c : sock)
| Upstream.

Definition resource_eq_dec (a b : resource) : {a = b} + {a <> b}.
Proof. decide equality; apply Nat.eq_dec. Defined.

(** Outcome of the [try] block of the fan-out for one client
    ([settimeout(0.5)] then [send(message)]).  [socket.send] returns the
    number of bytes the kernel took, which may be fewer than offered; the
    source does not look at it. *)
Inductive write_outcome :=
| Sent (n : nat)
| WriteError.

Inductive event :=
| ClientWrite (c : sock) (message : bytes) (r : write_outcome)
| UpstreamSend (data : bytes) (ok : bool).

(** Coroutines handed to [asyncio.create_task]. *)
Inductive task :=
| HandleClient (c : sock)
| WebsocketClose.

Inductive connection := Connection (url : string).

(** The exceptions the program meets.  The last two are not subclasses
    of [Exception]: an [except Exception] clause lets them through, a
    bare [except:] does not.  They come from outside the program: a
    [KeyboardInterrupt] where it waits inside a call for a connection
    or for input ([accept], [recv]), a [CancelledError] where a task
    waits at an [await]. *)
Inductive exn :=
| ValueError
| OSError
| SocketTimeout
| AsyncTimeoutError
| ConnectionClosed
| RuntimeError
| IndexError
| UnicodeDecodeError
| KeyboardInterrupt
| CancelledError.

(** [isinstance(e, Exception)] *)
Definition is_Exception (e : exn) : bool :=
  match e with
  | KeyboardInterrupt | CancelledError => false
  | _ => true
  end.

(** ** The state *)

Record State := mkState {
  (* attributes of the bridge object, lines 24-29 *)
  websocket_url : string;
  server_socket : option sock;
  websocket : option connection;
  running : bool;
  clients : list sock;
  (* the world *)
  fresh : sock;               (* identity of the next socket object *)
  released : list resource;   (* descriptors given back, oldest first *)
  faulty : list sock;         (* sockets whose first close() raises *)
  event_loop : bool;          (* is an asyncio loop running *)
  spawned : list task;        (* tasks created and not yet started *)
  trace : list event          (* writes to clients and to upstream *)
}.

Definition set_server_socket (v : option sock) (s : State) : State :=
  mkState (websocket_url s) v (websocket s) (running s) (clients s)
          (fresh s) (released s) (faulty s) (event_loop s) (spawned s) (trace s).

Definition set_websocket (v : option connection) (s : State) : State :=
  mkState (websocket_url s) (server_socket s) v (running s) (clients s)
          (fresh s) (released s) (faulty s) (event_loop s) (spawned s) (trace s).

Definition set_running (v : bool) (s : State) : State :=
  mkState (websocket_url s) (server_socket s) (websocket s) v (clients s)
          (fresh s) (released s) (faulty s) (event_loop s) (spawned s) (trace s).

Definition set_clients (v : list sock) (s : State) : State :=
  mkState (websocket_url s) (server_socket s) (websocket s) (running s) v
          (fresh s) (released s) (faulty s) (event_loop s) (spawned s) (trace s).

Definition set_fresh (v : sock) (s : State) : State :=
  mkState (websocket_url s) (server_socket s) (websocket s) (running s) (clients s)
          v (released s) (faulty s) (event_loop s) (spawned s) (trace s).

Definition set_released (v : list resource) (s : State) : State :=
  mkState (websocket_url s) (server_socket s) (websocket s) (running s) (clients s)
          (fresh s) v (faulty s) (event_loop s) (spawned s) (trace s).

Definition set_spawned (v : list task) (s : State) : State :=
  mkState (websocket_url s) (server_socket s) (websocket s) (running s) (clients s)
          (fresh s) (released s) (faulty s) (event_loop s) v (trace s).

Definition set_trace (v : list event) (s : State) : State :=
  mkState (websocket_url s) (server_socket s) (websocket s) (running s) (clients s)
          (fresh s) (released s) (faulty s) (event_loop s) (spawned s) v.

(** [WebSocketADBBridge.__init__], lines 23-29, in a world where [n]
    socket objects were made before and an event loop is running. *)
Definition init (url : string) (n : sock) (bad : list sock) : State :=
  mkState url None None false [] n [] bad true [] [].

(** ** State and exceptions *)

Inductive outcome (A : Type) :=
| Ret (a : A)
| Raise (e : exn).
Arguments Ret {A} a.
Arguments Raise {A} e.

Definition M (A : Type) := State -> outcome A * State.

Definition ret {A} (a : A) : M A := fun s => (Ret a, s).

Definition raise {A} (e : exn) : M A := fun s => (Raise e, s).

Definition bind {A B} (m : M A) (k : A -> M B) : M B :=
  fun s => match m s with
           | (Ret a, s') => k a s'
           | (Raise e, s') => (Raise e, s')
           end.

Definition get : M State := fun s => (Ret s, s).

Definition modify (f : State -> State) : M unit := fun s => (Ret tt, f s).

(** [try: m  except: h]; what [m] did to the state before raising stays. *)
Definition try_except {A} (m : M A) (h : exn -> M A) : M A :=
  fun s => match m s with
           | (Ret a, s') => (Ret a, s')
           | (Raise e, s') => h e s'
           end.

(** The clause [except Exception: h] as a handler: what is not an
    [Exception] goes on its way. *)
Definition except_Exception {A} (h : exn -> M A) (e : exn) : M A :=
  if is_Exception e then h e else raise e.

(** [try: m  except: pass]; the bare clause catches everything. *)
Definition try_pass (m : M unit) : M unit := try_except m (fun _ => ret tt).

Declare Scope monad_scope.
Delimit Scope monad_scope with monad.
Notation "x <- m ;; k" := (bind m (fun x => k))
  (at level 61, m at next level, right associativity) : monad_scope.
Notation "m ;; k" := (bind m (fun _ => k))
  (at level 61, right associativity) : monad_scope.
Local Open Scope monad_scope.

(** [for x in l: body x]; an exception leaving the body ends the loop. *)
Fixpoint for_each {A} (l : list A) (body : A -> M unit) : M unit :=
  match l with
  | [] => ret tt
  | x :: l' => body x ;; for_each l' body
  end.

Definition exec {A} (m : M A) (s : State) : State := snd (m s).

Definition result {A} (m : M A) (s : State) : outcome A := fst (m s).

(** ** Library calls *)

Definition is_closed (c : sock) (s : State) : bool :=
  if in_dec resource_eq_dec (Socket c) (released s) then true else false.

(** [socket.close()]: the descriptor goes back once; a second call finds
    the object closed and does nothing.  The first call may still report
    an error of the underlying [close]. *)
Definition sock_close (c : sock) : M unit :=
  s <- get ;;
  if is_closed c s then ret tt
  else
    modify (set_released (released s ++ [Socket c])) ;;
    if in_dec Nat.eq_dec c (faulty s) then raise OSError else ret tt.

(** [socket.settimeout(t)]: fails on a closed socket. *)
Definition sock_settimeout (c : sock) : M unit :=
  s <- get ;;
  if is_closed c s then raise OSError else ret tt.

(** [list.remove(x)]: drops the first [x]; [ValueError] when there is none. *)
Fixpoint list_remove (x : sock) (l : list sock) : option (list sock) :=
  match l with
  | [] => None
  | y :: l' =>
      if Nat.eqb x y then Some l'
      else match list_remove x l' with
           | Some r => Some (y :: r)
           | None => None
           end
  end.

Definition clients_remove (c : sock) : M unit :=
  s <- get ;;
  match list_remove c (clients s) with
  | Some l => modify (set_clients l)
  | None => raise ValueError
  end.

(** [x in l] *)
Definition list_in (x : sock) (l : list sock) : bool := existsb (Nat.eqb x) l.

Definition log (e : event) : M unit :=
  modify (fun s => set_trace (trace s ++ [e]) s).

(** [asyncio.create_task(coro)]: [RuntimeError] without a running loop. *)
Definition create_task (t : task) : M unit :=
  s <- get ;;
  if event_loop s then modify (set_spawned (spawned s ++ [t]))
  else raise RuntimeError.

(** [while self.running and self.websocket] *)
Definition loop_condition (s : State) : bool :=
  running s && match websocket s with Some _ => true | None => false end.

Definition upstream_closed (s : State) : bool :=
  if in_dec resource_eq_dec Upstream (released s) then true else false.

(** ** Upstream to clients: [websocket_forwarder], lines 121-157 *)

(** What [await asyncio.wait_for(self.websocket.recv(), timeout=2.0)]
    produces.  A message comes with the behaviour of the client sockets
    at the moment it is fanned out. *)
Inductive ws_event :=
| WsMessage (message : bytes) (wr : sock -> write_outcome)
| WsTimeout
| WsConnectionClosed
| WsError
| WsCancelled.     (* the task is cancelled while it waits at line 127 *)

Definition ws_recv (ev : ws_event) : M (bytes * (sock -> write_outcome)) :=
  match ev with
  | WsMessage message wr => ret (message, wr)
  | WsTimeout => raise AsyncTimeoutError
  | WsConnectionClosed => raise ConnectionClosed
  | WsError => raise RuntimeError
  | WsCancelled => raise CancelledError
  end.

(** Lines 136-137: [settimeout(0.5)], then [send(message)] with its
    return value dropped.  Both raise on a closed socket. *)
Definition client_write (c : sock) (message : bytes) (r : write_outcome) : M unit :=
  s <- get ;;
  let r' := if is_closed c s then WriteError else r in
  log (ClientWrite c message r') ;;
  match r' with
  | Sent _ => ret tt
  | WriteError => raise OSError
  end.

(** Lines 134-145, the body of the [for] loop. *)
Definition forward_to_client (message : bytes) (wr : sock -> write_outcome)
    (client_socket : sock) : M unit :=
  try_except
    (client_write client_socket message (wr client_socket))
    (except_Exception
       (fun _ => try_pass (clients_remove client_socket ;; sock_close client_socket))).

(** Lines 133-145: the loop runs over the copy [self.clients[:]]. *)
Definition fan_out (message : bytes) (wr : sock -> write_outcome) : M unit :=
  s <- get ;;
  for_each (clients s) (forward_to_client message wr).

(** Lines 125-154, one turn of the [while]; [true] means loop again. *)
Definition forwarder_iteration (ev : ws_event) : M bool :=
  try_except
    (mw <- ws_recv ev ;;
     fan_out (fst mw) (snd mw) ;;
     ret true)
    (fun e => match e with
              | AsyncTimeoutError => ret true
              | ConnectionClosed => ret false
              | _ => except_Exception (fun _ => ret false) e
              end).

(** How a loop fed by a finite script ends: it left the [while], or it
    is still waiting for what the script does not say. *)
Inductive status := Exited | Blocked.

Fixpoint forwarder_loop (script : list ws_event) : M status :=
  s <- get ;;
  if loop_condition s then
    match script with
    | [] => ret Blocked
    | ev :: rest =>
        again <- forwarder_iteration ev ;;
        if again then forwarder_loop rest else ret Exited
    end
  else ret Exited.

Definition websocket_forwarder (script : list ws_event) : M status :=
  try_except (forwarder_loop script) (except_Exception (fun _ => ret Exited)).

(** ** Client to upstream: [handle_client], lines 85-119 *)

(** What [client_socket.recv(8192)] produces; a chunk comes with the
    fate of the [websocket.send] that follows it.  [recv] waits up to
    five seconds inside the call, where a [KeyboardInterrupt] can reach
    it; the [await] of line 102 is where a cancelled task is told. *)
Inductive recv_event :=
| RecvData (data : bytes) (send_ok : bool)
| RecvTimeout
| RecvError
| RecvInterrupt
| RecvCancelled (data : bytes) (written : bool).

(** What becomes of [await self.websocket.send(data)]: it returns or
    raises, or the task is cancelled while it waits, the bytes being
    written or not by then. *)
Inductive send_fate :=
| SendDone (ok : bool)
| SendCancelled (written : bool).

Definition sock_recv (c : sock) (ev : recv_event) : M (bytes * send_fate) :=
  s <- get ;;
  if is_closed c s then raise OSError
  else match ev with
       | RecvData data ok => ret (data, SendDone ok)
       | RecvTimeout => raise SocketTimeout
       | RecvError => raise OSError
       | RecvInterrupt => raise KeyboardInterrupt
       | RecvCancelled data written => ret (data, SendCancelled written)
       end.

(** [await self.websocket.send(data)]: one whole message or an
    exception.  On a closed session it raises at once and does not wait. *)
Definition websocket_send (data : bytes) (f : send_fate) : M unit :=
  s <- get ;;
  match f with
  | SendDone ok =>
      let ok' := ok && negb (upstream_closed s) in
      log (UpstreamSend data ok') ;;
      if ok' then ret tt else raise ConnectionClosed
  | SendCancelled written =>
      if upstream_closed s
      then log (UpstreamSend data false) ;; raise ConnectionClosed
      else log (UpstreamSend data written) ;; raise CancelledError
  end.

(** Lines 93-108, one turn of the [while]. *)
Definition read_iteration (client_socket : sock) (ev : recv_event) : M bool :=
  try_except
    (d <- sock_recv client_socket ev ;;
     match fst d with
     | [] => ret false
     | _ :: _ => websocket_send (fst d) (snd d) ;; ret true
     end)
    (fun e => match e with
              | SocketTimeout => ret true
              | _ => except_Exception (fun _ => ret false) e
              end).

Fixpoint read_loop (client_socket : sock) (script : list recv_event) : M status :=
  s <- get ;;
  if loop_condition s then
    match script with
    | [] => ret Blocked
    | ev :: rest =>
        again <- read_iteration client_socket ev ;;
        if again then read_loop client_socket rest else ret Exited
    end
  else ret Exited.

(** Lines 89-90. *)
Definition handle_client_enter (client_socket : sock) : M unit :=
  modify (fun s => set_clients (clients s ++ [client_socket]) s) ;;
  sock_settimeout client_socket.

(** Lines 112-119, the [finally] block. *)
Definition handle_client_cleanup (client_socket : sock) : M unit :=
  try_pass
    (sock_close client_socket ;;
     s <- get ;;
     if list_in client_socket (clients s) then clients_remove client_socket
     else ret tt).

(** [try: m  finally: f]: [f] runs when [m] is over, whether it
    returned or raised, and what [m] raised goes on after it; it has not
    run while [m] still waits. *)
Definition try_finally (m : M status) (f : M unit) : M status :=
  fun s => match m s with
           | (Ret Blocked, s') => (Ret Blocked, s')
           | (r, s') => match f s' with
                        | (Ret _, s'') => (r, s'')
                        | (Raise e, s'') => (Raise e, s'')
                        end
           end.

Definition handle_client (client_socket : sock) (script : list recv_event) : M status :=
  try_finally
    (try_except
       (handle_client_enter client_socket ;; read_loop client_socket script)
       (except_Exception (fun _ => ret Exited)))
    (handle_client_cleanup client_socket).

(** ** The listener: [start_tcp_server], lines 53-83 *)

(** What [accept()] produces; it waits up to a second inside the call,
    where a [KeyboardInterrupt] can reach it. *)
Inductive accept_event := Accepted | AcceptTimeout | AcceptError | AcceptInterrupt.

(** [self.server_socket.accept()]: a connection is a new socket object. *)
Definition sock_accept (ev : accept_event) : M sock :=
  s <- get ;;
  match server_socket s with
  | None => raise OSError
  | Some l =>
      if is_closed l s then raise OSError
      else match ev with
           | Accepted => modify (set_fresh (S (fresh s))) ;; ret (fresh s)
           | AcceptTimeout => raise SocketTimeout
           | AcceptError => raise OSError
           | AcceptInterrupt => raise KeyboardInterrupt
           end
  end.

(** Lines 68-80, one turn of the [while]. *)
Definition accept_iteration (ev : accept_event) : M bool :=
  try_except
    (client_socket <- sock_accept ev ;;
     create_task (HandleClient client_socket) ;;
     ret true)
    (fun e => match e with
              | SocketTimeout => ret true
              | _ => except_Exception (fun _ => ret false) e
              end).

Fixpoint accept_loop (script : list accept_event) : M status :=
  s <- get ;;
  if running s then
    match script with
    | [] => ret Blocked
    | ev :: rest =>
        again <- accept_iteration ev ;;
        if again then accept_loop rest else ret Exited
    end
  else ret Exited.

(** Lines 59-63; [bind] fails when the port is taken. *)
Definition listen (bind_ok : bool) : M unit :=
  s <- get ;;
  modify (fun s => set_fresh (S (fresh s)) (set_server_socket (Some (fresh s)) s)) ;;
  if bind_ok then ret tt else raise OSError.

Definition start_tcp_server (bind_ok : bool) (script : list accept_event) : M status :=
  try_except (listen bind_ok ;; accept_loop script)
             (except_Exception (fun _ => ret Exited)).

(** ** [connect_websocket], lines 31-51, and the start of [run_bridge] *)

Definition connect_websocket (connect_ok : bool) : M bool :=
  try_except
    (if connect_ok
     then s <- get ;;
          modify (set_websocket (Some (Connection (websocket_url s)))) ;;
          ret true
     else raise OSError)
    (except_Exception (fun _ => ret false)).

(** Lines 161-166: what [run_bridge] does before [asyncio.gather]. *)
Definition run_bridge_start (connect_ok : bool) : M bool :=
  modify (set_running true) ;;
  connect_websocket connect_ok.

(** ** [stop_bridge], lines 180-205 *)

(** The coroutine [self.websocket.close()]; closing twice is harmless. *)
Definition websocket_close : M unit :=
  s <- get ;;
  if upstream_closed s then ret tt
  else modify (set_released (released s ++ [Upstream])).

Definition stop_bridge : M unit :=
  modify (set_running false) ;;
  s <- get ;;
  match server_socket s with
  | Some l => try_pass (sock_close l)
  | None => ret tt
  end ;;
  s <- get ;;
  for_each (clients s) (fun client_socket => try_pass (sock_close client_socket)) ;;
  modify (set_clients []) ;;
  s <- get ;;
  match websocket s with
  | Some _ => try_pass (create_task WebsocketClose)
  | None => ret tt
  end.

(** ** The tasks of [run_bridge], lines 159-178

    [asyncio.gather] runs [start_tcp_server] and [websocket_forwarder]
    side by side, and every accepted client adds a [handle_client] task.
    A turn of a task is one passage through its loop body; [step] lets
    the next turn go to any task that is still alive.  The real loop
    changes task only at an [await], so it allows fewer orders of turns
    than [step]: what holds for every order here holds for every order
    there, and this is what [step] is used for.  Which orders the
    program has is said by [turn], further down.  A task that an
    interrupt or a cancellation leaves is over like one that returned;
    where the exception goes from there is not followed, so [Return] is
    the return of a [run_bridge] that was not interrupted. *)

Inductive server_state := Waiting | Accepting | Done.

Record Sys := mkSys {
  st : State;
  server : server_state;   (* where start_tcp_server is *)
  forwarder : bool;        (* websocket_forwarder is still in its loop *)
  readers : list sock;     (* handle_client tasks inside their read loop *)
  finished : bool          (* run_bridge returned and main stopped the bridge *)
}.

Inductive label :=
| Listen (bind_ok : bool)              (* lines 59-63 *)
| Accept (ev : accept_event)           (* lines 67-80 *)
| Start (c : sock)                     (* lines 87-90, first run of the task *)
| Read (c : sock) (ev : recv_event)    (* lines 92-119 *)
| Forward (ev : ws_event)              (* lines 124-154 *)
| Return.                              (* line 178, then line 250 *)

(** Takes the first [HandleClient c] out of the created tasks. *)
Fixpoint take_task (c : sock) (l : list task) : option (list task) :=
  match l with
  | [] => None
  | HandleClient c' :: l' =>
      if Nat.eqb c c' then Some l'
      else option_map (cons (HandleClient c')) (take_task c l')
  | t :: l' => option_map (cons t) (take_task c l')
  end.

Definition step (l : label) (y : Sys) : option Sys :=
  if finished y then None else
  let s := st y in
  match l with
  | Listen bind_ok =>
      match server y with
      | Waiting =>
          match listen bind_ok s with
          | (Ret _, s') => Some (mkSys s' Accepting (forwarder y) (readers y) false)
          | (Raise _, s') => Some (mkSys s' Done (forwarder y) (readers y) false)
          end
      | _ => None
      end
  | Accept ev =>
      match server y with
      | Accepting =>
          if running s then
            match accept_iteration ev s with
            | (Ret true, s') => Some (mkSys s' Accepting (forwarder y) (readers y) false)
            | (_, s') => Some (mkSys s' Done (forwarder y) (readers y) false)
            end
          else Some (mkSys s Done (forwarder y) (readers y) false)
      | _ => None
      end
  | Start c =>
      match take_task c (spawned s) with
      | None => None
      | Some rest =>
          match handle_client_enter c (set_spawned rest s) with
          | (Ret _, s') =>
              Some (mkSys s' (server y) (forwarder y) (readers y ++ [c]) false)
          | (Raise _, s') =>
              Some (mkSys (exec (handle_client_cleanup c) s')
                          (server y) (forwarder y) (readers y) false)
          end
      end
  | Read c ev =>
      if list_in c (readers y) then
        let leave s' :=
          Some (mkSys (exec (handle_client_cleanup c) s') (server y) (forwarder y)
                      (remove Nat.eq_dec c (readers y)) false) in
        if loop_condition s then
          match read_iteration c ev s with
          | (Ret true, s') => Some (mkSys s' (server y) (forwarder y) (readers y) false)
          | (_, s') => leave s'
          end
        else leave s
      else None
  | Forward ev =>
      if forwarder y then
        if loop_condition s then
          match forwarder_iteration ev s with
          | (Ret true, s') => Some (mkSys s' (server y) true (readers y) false)
          | (_, s') => Some (mkSys s' (server y) false (readers y) false)
          end
        else Some (mkSys s (server y) false (readers y) false)
      else None
  | Return =>
      match server y, forwarder y with
      | Done, false =>
          Some (mkSys (exec stop_bridge s) Done false (readers y) true)
      | _, _ => None
      end
  end.

Fixpoint run (ls : list label) (y : Sys) : option Sys :=
  match ls with
  | [] => Some y
  | l :: ls' =>
      match step l y with
      | Some y' => run ls' y'
      | None => None
      end
  end.

(** The bridge when [run_bridge] reaches [asyncio.gather]: [main] made
    the object, the upstream session is open. *)
Definition boot (url : string) (n : sock) (bad : list sock) : Sys :=
  mkSys (exec (run_bridge_start true) (init url n bad)) Waiting true [] false.

(** ** Who holds the event loop

    The event loop runs one task at a time, and another task gets its
    turn only where the running one waits at an [await].  The source
    has two: line 102 in [handle_client] and line 127 in
    [websocket_forwarder].  [start_tcp_server] has none: from its first
    line to the end of its accept loop nothing else runs.  In
    [handle_client] the lines 87-95 come before the first [await], and a
    [recv] that times out goes round the loop (line 105) without one.
    An [await] that finds its result ready does not give the loop away;
    this is the same task having the next turn.  [asyncio.gather] makes
    the task of [start_tcp_server] first and tasks begin in the order
    they were made, so it is the first to run. *)

Inductive holder :=
| Free                  (* every task waits at an await or has not begun *)
| Listener              (* start_tcp_server is in its accept loop *)
| Handler (c : sock).   (* the handle_client of c is between two awaits *)

Record Loop := mkLoop {
  sys : Sys;
  holding : holder
}.

(** May the turn [l] come next. *)
Definition may_take (l : label) (z : Loop) : bool :=
  match holding z, l with
  | Free, Listen _ => true
  | Free, Start _ => true
  | Free, Read _ _ => true            (* goes on after line 102 *)
  | Free, Forward _ =>                (* goes on after line 127 *)
      match server (sys z) with Waiting => false | _ => true end
  | Free, Return => true
  | Listener, Accept _ => true
  | Handler c, Read c' _ => Nat.eqb c c'
  | _, _ => false
  end.

(** Who holds the loop when the turn [l] has led to [y']: the listener
    as long as its loop goes on; a handler that is still in its loop
    after its first lines or after a [recv] timeout; nobody after an
    [await]. *)
Definition holds_after (l : label) (y' : Sys) : holder :=
  match l with
  | Listen _ | Accept _ =>
      match server y' with Accepting => Listener | _ => Free end
  | Start c | Read c RecvTimeout =>
      if list_in c (readers y') then Handler c else Free
  | Read _ _ | Forward _ | Return => Free
  end.

Definition turn (l : label) (z : Loop) : option Loop :=
  if may_take l z then
    match step l (sys z) with
    | Some y' => Some (mkLoop y' (holds_after l y'))
    | None => None
    end
  else None.

Fixpoint turns (ls : list label) (z : Loop) : option Loop :=
  match ls with
  | [] => Some z
  | l :: ls' =>
      match turn l z with
      | Some z' => turns ls' z'
      | None => None
      end
  end.

Definition boot_loop (url : string) (n : sock) (bad : list sock) : Loop :=
  mkLoop (boot url n bad) Free.

(** ** [main], lines 207-250

    Text is a sequence of characters with code below 256. *)

(** [needle in hay] on strings. *)
Fixpoint contains (needle hay : string) : bool :=
  String.prefix needle hay ||
  match hay with
  | EmptyString => false
  | String _ hay' => contains needle hay'
  end.

(** [s.split(sep, 1)]: at most one cut, at the first [sep]. *)
Fixpoint split_once (sep : ascii) (s : string) : list string :=
  match s with
  | EmptyString => [EmptyString]
  | String c s' =>
      if Ascii.eqb c sep then [EmptyString; s']
      else match split_once sep s' with
           | [] => []
           | head :: tail => String c head :: tail
           end
  end.

Fixpoint lstrip (p : ascii -> bool) (s : string) : string :=
  match s with
  | EmptyString => EmptyString
  | String c s' => if p c then lstrip p s' else s
  end.

Fixpoint rstrip (p : ascii -> bool) (s : string) : string :=
  match s with
  | EmptyString => EmptyString
  | String c s' =>
      match rstrip p s' with
      | EmptyString => if p c then EmptyString else String c EmptyString
      | r => String c r
      end
  end.

(** [str.isspace] on one character. *)
Definition is_space (c : ascii) : bool :=
  let n := nat_of_ascii c in
  ((9 <=? n) && (n <=? 13)) || ((28 <=? n) && (n <=? 32)) ||
  (n =? 133) || (n =? 160).

(** [s.strip()] *)
Definition strip (s : string) : string := rstrip is_space (lstrip is_space s).

(** [s.strip] of the double quote character (code 34), line 216. *)
Definition strip_quotes (s : string) : string :=
  rstrip (Ascii.eqb "034"%char) (lstrip (Ascii.eqb "034"%char) s).

(** The test of line 215. *)
Definition is_key_line (line : string) : bool :=
  contains "GENYMOTION_ADB_URL="%string line || contains "publicAdbUrl="%string line.

(** What [open('/tmp/genymotion_connection.env', 'r')] finds.  A file
    that opens is the lines its iteration yields, to its end or up to
    the point where reading fails (bytes that do not decode, an error of
    the device). *)
Inductive conn_file :=
| FileNotFound                        (* [open] raises [FileNotFoundError] *)
| FileError                           (* [open] raises another [OSError] *)
| FileLines (lines : list string)     (* these lines, then the end *)
| FileGarbled (lines : list string).  (* these lines, then the iteration raises *)

(** A Python value that is [None] or a [str]; [truthy v] is [bool(v)]. *)
Definition truthy (v : option string) : bool :=
  match v with
  | None | Some EmptyString => false
  | Some _ => true
  end.

(** Lines 214-217; [websocket_url] is [None] on entry. *)
Fixpoint scan_lines (lines : list string) : outcome (option string) :=
  match lines with
  | [] => Ret None
  | line :: rest =>
      if is_key_line line then
        match nth_error (split_once "="%char line) 1 with
        | Some v => Ret (Some (strip_quotes (strip v)))
        | None => Raise IndexError
        end
      else scan_lines rest
  end.

Inductive main_event :=
| OpenFile
| Connect (url : string)
| Stop.

(** Lines 210-219: the value of [websocket_url] at line 221, or the
    exception that left [main], and what was touched on the way. *)
Definition discover (env : option string) (file : conn_file)
    : outcome (option string) * list main_event :=
  if truthy env then (Ret env, [])
  else match file with
       | FileNotFound => (Ret env, [OpenFile])
       | FileError => (Raise OSError, [OpenFile])
       | FileLines lines =>
           (match scan_lines lines with
            | Ret None => Ret env
            | r => r
            end, [OpenFile])
       | FileGarbled lines =>
           (* only [FileNotFoundError] is caught, line 218 *)
           (match scan_lines lines with
            | Ret None => Raise UnicodeDecodeError
            | r => r
            end, [OpenFile])
       end.

(** How [await bridge.run_bridge()] ends: it returns, or it is left by
    [KeyboardInterrupt], by an [Exception], or by something that is
    neither ([CancelledError], [SystemExit]). *)
Inductive run_outcome :=
| Returned (success : bool)
| Interrupted
| Crashed
| Cancelled.

Record main_result := mkResult {
  exit_code : option nat;      (* [None]: an exception left [main] *)
  events : list main_event
}.

Definition main (env : option string) (file : conn_file) (run : run_outcome)
    : main_result :=
  match discover env file with
  | (Raise _, evs) => mkResult None evs
  | (Ret websocket_url, evs) =>
      match websocket_url with
      | None | Some EmptyString => mkResult (Some 1) evs
      | Some ws_url =>
          if String.prefix "wss://"%string ws_url then
            (* run_bridge connects first; stop_bridge is in the finally,
               which runs also when neither except clause applies *)
            mkResult match run with
                     | Returned true => Some 0
                     | Returned false => Some 1
                     | Interrupted => Some 0
                     | Crashed => Some 1
                     | Cancelled => None
                     end
                     (evs ++ [Connect ws_url; Stop])
          else mkResult (Some 1) evs
      end
  end.

(** ** Reading the trace *)

(** Bytes client [c] was given: for each write, what its socket took. *)
Fixpoint client_received (c : sock) (tr : list event) : bytes :=
  match tr with
  | [] => []
  | ClientWrite c' message (Sent n) :: tr' =>
      if Nat.eqb c c' then firstn n message ++ client_received c tr'
      else client_received c tr'
  | _ :: tr' => client_received c tr'
  end.

(** Bytes the upstream session was given, in order. *)
Fixpoint upstream_received (tr : list event) : bytes :=
  match tr with
  | [] => []
  | UpstreamSend data true :: tr' => data ++ upstream_received tr'
  | _ :: tr' => upstream_received tr'
  end.

(** Does the write to [c] fail when the fan-out starts in [s]. *)
Definition write_fails (s : State) (wr : sock -> write_outcome) (c : sock) : bool :=
  is_closed c s || match wr c with WriteError => true | Sent _ => false end.

(** The write the fan-out makes for [c]. *)
Definition attempt (s : State) (wr : sock -> write_outcome) (message : bytes)
    (c : sock) : event :=
  ClientWrite c message (if write_fails s wr c then WriteError else wr c).

(** ** What a call leaves behind

    The state after each call in closed form; the properties below
    first show that the methods compute exactly these. *)

(** What the body of the [for] loop does to the state, case by case. *)
Definition after_write (message : bytes) (wr : sock -> write_outcome)
    (c : sock) (t : State) : State :=
  if write_fails t wr c then
    let t1 := set_trace (trace t ++ [ClientWrite c message WriteError]) t in
    match list_remove c (clients t) with
    | Some l =>
        if is_closed c t then set_clients l t1
        else set_released (released t ++ [Socket c]) (set_clients l t1)
    | None => t1
    end
  else set_trace (trace t ++ [ClientWrite c message (wr c)]) t.

Definition close_state (c : sock) (t : State) : State :=
  if is_closed c t then t else set_released (released t ++ [Socket c]) t.

Definition close_all (l : list sock) (t : State) : State :=
  fold_left (fun t c => close_state c t) l t.

(** The state [stop_bridge] leaves. *)
Definition stop_state (s : State) : State :=
  let s1 := set_running false s in
  let s2 := match server_socket s1 with
            | Some l => close_state l s1
            | None => s1
            end in
  let s4 := set_clients [] (close_all (clients s2) s2) in
  match websocket s4 with
  | Some _ =>
      if event_loop s4 then set_spawned (spawned s4 ++ [WebsocketClose]) s4 else s4
  | None => s4
  end.

(** The state the body of the accept loop leaves. *)
Definition after_accept (ev : accept_event) (t : State) : State :=
  match server_socket t with
  | None => t
  | Some l =>
      if is_closed l t then t
      else match ev with
           | Accepted =>
               let t1 := set_fresh (S (fresh t)) t in
               if event_loop t
               then set_spawned (spawned t ++ [HandleClient (fresh t)]) t1
               else t1
           | _ => t
           end
  end.

(** The state the [finally] block of [handle_client] leaves: when
    [close()] raises, the removal below it is skipped. *)
Definition after_cleanup (c : sock) (t : State) : State :=
  let t1 := close_state c t in
  if negb (is_closed c t) && (if in_dec Nat.eq_dec c (faulty t) then true else false)
  then t1
  else match list_remove c (clients t) with
       | Some l => set_clients l t1
       | None => t1
       end.

(** The answer and the state of a turn of the read loop. *)
Definition after_read (c : sock) (ev : recv_event) (t : State)
    : outcome bool * State :=
  if is_closed c t then (Ret false, t)
  else match ev with
       | RecvData [] _ | RecvCancelled [] _ => (Ret false, t)
       | RecvData data ok =>
           let ok' := ok && negb (upstream_closed t) in
           (Ret ok', set_trace (trace t ++ [UpstreamSend data ok']) t)
       | RecvCancelled data written =>
           if upstream_closed t
           then (Ret false, set_trace (trace t ++ [UpstreamSend data false]) t)
           else (Raise CancelledError,
                 set_trace (trace t ++ [UpstreamSend data written]) t)
       | RecvTimeout => (Ret true, t)
       | RecvError => (Ret false, t)
       | RecvInterrupt => (Raise KeyboardInterrupt, t)
       end.

(** The state a turn of the forwarder leaves. *)
Definition after_forward (ev : ws_event) (t : State) : State :=
  match ev with
  | WsMessage message wr => exec (fan_out message wr) t
  | _ => t
  end.

(** Does the forwarder go round its loop again after [ev]. *)
Definition forwards_again (ev : ws_event) : bool :=
  match ev with
  | WsMessage _ _ | WsTimeout => true
  | _ => false
  end.

(** How a turn of the forwarder's loop ends on [ev]. *)
Definition forwarder_answer (ev : ws_event) : outcome bool :=
  match ev with
  | WsCancelled => Raise CancelledError
  | _ => Ret (forwards_again ev)
  end.

(** How a turn of the accept loop ends on [ev], the listener being open. *)
Definition accept_answer (ev : accept_event) : outcome bool :=
  match ev with
  | Accepted | AcceptTimeout => Ret true
  | AcceptError => Ret false
  | AcceptInterrupt => Raise KeyboardInterrupt
  end.

(** The state [handle_client] leaves once the socket is registered and
    the read loop has run on [script]: the [finally] block runs when the
    loop was left, not while it waits for more. *)
Definition after_read_loop (c : sock) (script : list recv_event) (t : State) : State :=
  match read_loop c script t with
  | (Ret Blocked, t') => t'
  | (_, t') => after_cleanup c t'
  end.

(** Turns of one task. *)
Definition is_forward (l : label) : Prop := exists ev, l = Forward ev.

Definition is_accept (l : label) : Prop := exists ev, l = Accept ev.

Definition is_read (c : sock) (l : label) : Prop := exists ev, l = Read c ev.

(** ** Invariants *)

(** Does the client stay registered through a fan-out that starts in [s]. *)
Definition keeps (s : State) (wr : sock -> write_outcome) (c : sock) : bool :=
  negb (write_fails s wr c).

Definition write_to (message : bytes) (wr : sock -> write_outcome)
    (t : State) (c : sock) : State :=
  after_write message wr c t.

(** The sockets closed while the loop of a fan-out started in [s] runs
    are failing ones, so a write fails in the middle of the loop iff it
    fails at its start. *)
Definition fan_out_inv (s : State) (wr : sock -> write_outcome) (t : State) : Prop :=
  (forall c, is_closed c t = true -> write_fails s wr c = true) /\
  (forall c, is_closed c s = true -> is_closed c t = true).

(** From [t] to [t'] descriptors were only given back, each at most
    once, and none that [t] had given back already. *)
Definition releases_once (t t' : State) : Prop :=
  exists extra,
    released t' = released t ++ extra /\
    NoDup extra /\
    (forall x, In x extra -> ~ In x (released t)).

(** What a stopped bridge looks like. *)
Definition stopped (t : State) : Prop :=
  running t = false /\
  clients t = [] /\
  (forall l, server_socket t = Some l -> is_closed l t = true).

(** Sockets whose [handle_client] task was created and has not run yet. *)
Definition handlers (l : list task) : list sock :=
  flat_map (fun t => match t with HandleClient c => [c] | WebsocketClose => [] end) l.

(** What holds of [self.clients] whatever the tasks did so far: no
    socket is in it twice; a socket whose task has not started is not in
    it; socket identities are never reused; and a registered socket that
    is still open has its read loop running. *)
Definition registry_ok (y : Sys) : Prop :=
  NoDup (clients (st y)) /\
  NoDup (handlers (spawned (st y))) /\
  (forall c, In c (clients (st y)) -> c < fresh (st y)) /\
  (forall c, In c (handlers (spawned (st y))) ->
             c < fresh (st y) /\ ~ In c (clients (st y))) /\
  (forall c, In c (clients (st y)) ->
             In c (readers y) \/ is_closed c (st y) = true).

Fixpoint has_char (c : ascii) (s : string) : bool :=
  match s with
  | EmptyString => false
  | String c' s' => Ascii.eqb c' c || has_char c s'
  end.

(** The chunks [recv] hands out in a script. *)
Definition chunks (script : list recv_event) : bytes :=
  flat_map (fun ev => match ev with
                      | RecvData data _ | RecvCancelled data _ => data
                      | _ => []
                      end) script.

(** ** More readings of the code *)

(** Did the [finally] block of [handle_client] skip the removal: it
    does when [close()] raises, which only a first [close()] can. *)
Definition cleanup_skipped (c : sock) (t : State) : bool :=
  negb (is_closed c t) && (if in_dec Nat.eq_dec c (faulty t) then true else false).

(** Connections the accept loop takes from a script: those before the
    first error or interrupt, which ends the loop. *)
Fixpoint admitted (script : list accept_event) : nat :=
  match script with
  | [] => 0
  | Accepted :: rest => S (admitted rest)
  | AcceptTimeout :: rest => admitted rest
  | AcceptError :: _ | AcceptInterrupt :: _ => 0
  end.

(** How the accept loop ends on a script, on a running bridge with its
    listener open: it waits for more, it was left on an error, or a
    [KeyboardInterrupt] left it. *)
Fixpoint accept_end (script : list accept_event) : outcome status :=
  match script with
  | [] => Ret Blocked
  | Accepted :: rest | AcceptTimeout :: rest => accept_end rest
  | AcceptError :: _ => Ret Exited
  | AcceptInterrupt :: _ => Raise KeyboardInterrupt
  end.

(** [e] is what an interrupt or a cancellation in [script] raises. *)
Definition interrupts (script : list recv_event) (e : exn) : Prop :=
  (e = KeyboardInterrupt /\ In RecvInterrupt script) \/
  (e = CancelledError /\
   exists data written, In (RecvCancelled data written) script).

(** Line 216 on one line: [line.split('=', 1)[1].strip().strip(...)]. *)
Definition line_value (line : string) : outcome (option string) :=
  match nth_error (split_once "="%char line) 1 with
  | Some v => Ret (Some (strip_quotes (strip v)))
  | None => Raise IndexError
  end.

Definition first_is (p : ascii -> bool) (s : string) : bool :=
  match s with
  | EmptyString => false
  | String a _ => p a
  end.

Fixpoint last_is (p : ascii -> bool) (s : string) : bool :=
  match s with
  | EmptyString => false
  | String a EmptyString => p a
  | String _ s' => last_is p s'
  end.

Definition is_quote : ascii -> bool := Ascii.eqb "034"%char.

(** The line [KEY="url"] with its newline, as a launcher writes it. *)
Definition quoted_line (key url : string) : string :=
  (key ++ String "="%char (String "034"%char
     (url ++ String "034"%char (String "010"%char EmptyString))))%string.

(** ** Sample runs *)

(** A bridge with its listener up and one client, socket 1, connected
    and registered. *)
Definition one_client_run : list label := [Listen true; Accept Accepted; Start 1].

Definition one_client : Sys :=
  Eval vm_compute in
    match run one_client_run (boot "wss://device"%string 0 []) with
    | Some y => y
    | None => boot "wss://device"%string 0 []
    end.

(** A listener, two clients accepted and started, one fan-out in which
    the first client's write fails, and the second client hanging up. *)
Definition sample_run : list label :=
  [Listen true; Accept Accepted; Accept Accepted; Start 1; Start 2;
   Forward (WsMessage [x61] (fun c => if Nat.eqb c 1 then WriteError else Sent 1));
   Read 2 (RecvData [] true)].

Definition sample_end : Sys :=
  Eval vm_compute in
    match run sample_run (boot "wss://device"%string 0 []) with
    | Some y => y
    | None => boot "wss://device"%string 0 []
    end.

(** Two clients, registered in the order 2, 1. *)
Definition two_clients_run : list label :=
  [Listen true; Accept Accepted; Accept Accepted; Start 2; Start 1].

Definition two_clients : Sys :=
  Eval vm_compute in
    match run two_clients_run (boot "wss://device"%string 0 []) with
    | Some y => y
    | None => boot "wss://device"%string 0 []
    end.

(** The listener takes one connection and its accept loop ends on an
    error; the client's task starts, reads a chunk and waits at line
    102 for it to be sent. *)
Definition served_run : list label :=
  [Listen true; Accept Accepted; Accept AcceptError;
   Start 1; Read 1 (RecvData [x41] true)].

Definition served : Loop :=
  Eval vm_compute in
    match turns served_run (boot_loop "wss://device"%string 0 []) with
    | Some z => z
    | None => boot_loop "wss://device"%string 0 []
    end.

(** Then [websocket.recv()] raises [ConnectionClosed]. *)
Definition upstream_lost : Loop :=
  Eval vm_compute in
    match turn (Forward WsConnectionClosed) served with
    | Some z => z
    | None => served
    end.

(** Then the client's task goes on, and the client sends nothing. *)
Definition client_polling : Loop :=
  Eval vm_compute in
    match turn (Read 1 RecvTimeout) upstream_lost with
    | Some z => z
    | None => upstream_lost
    end.

(** Or else [run_bridge] returns and [main] stops the bridge. *)
Definition bridge_stopped : Loop :=
  Eval vm_compute in
    match turn Return upstream_lost with
    | Some z => z
    | None => upstream_lost
    end.








(** A connection file with a comment and then both keys: the first key
    line wins, its value is unquoted. *)
Definition sample_file : list string :=
  ["# written by the launcher"%string;
   ("publicAdbUrl=" ++ String "034" ("wss://device/adb?token=1" ++
      String "034" (String "010" EmptyString)))%string;
   "GENYMOTION_ADB_URL=wss://other/adb"%string].

(** Two clients; a fan-out in which the write to client 1 fails. *)
Definition pruned_run : list label :=
  [Listen true; Accept Accepted; Accept Accepted; Start 1; Start 2;
   Forward (WsMessage [x61] (fun c => if Nat.eqb c 1 then WriteError else Sent 1))].

Definition pruned_one : Sys :=
  Eval vm_compute in
    match run pruned_run (boot "wss://device"%string 0 []) with
    | Some y => y
    | None => boot "wss://device"%string 0 []
    end.

Definition pruned_one_left : Sys :=
  Eval vm_compute in
    match step (Read 1 (RecvData [x41] true)) pruned_one with
    | Some y => y
    | None => pruned_one
    end.

(** A running bridge with no client, and one where socket 7 is a client
    whose [close()] will raise. *)
Definition running_state : State :=
  Eval vm_compute in exec (run_bridge_start true) (init "wss://device"%string 5 []).

Definition running_state_bad_close : State :=
  Eval vm_compute in exec (run_bridge_start true) (init "wss://device"%string 8 [7]).

(** A file whose first key line has an empty value, before a good one. *)
Definition empty_first_file : list string :=
  ["publicAdbUrl="%string; "GENYMOTION_ADB_URL=wss://device/adb"%string].

(** The bytes the forwarder fans out on a script: the messages up to
    the event that ends its loop, one after the other. *)
Fixpoint fanned (script : list ws_event) : bytes :=
  match script with
  | [] => []
  | WsMessage message _ :: rest => message ++ fanned rest
  | WsTimeout :: rest => fanned rest
  | _ :: _ => []
  end.

(** The socket of [c] takes the whole message if [ev] is one. *)
Definition takes_whole (c : sock) (ev : ws_event) : Prop :=
  match ev with
  | WsMessage message wr => exists k, wr c = Sent k /\ List.length message <= k
  | _ => True
  end.

(** Upstream events for two clients: socket 2 fails on the second
    message, socket 1 takes everything. *)
Definition sample_upstream : list ws_event :=
  [WsMessage [x61] (fun _ => Sent 1);
   WsTimeout;
   WsMessage [x62; x63] (fun c => if Nat.eqb c 2 then WriteError else Sent 2);
   WsConnectionClosed;
   WsMessage [x64] (fun _ => Sent 1)].

(** * Properties *)

(** ** Basic facts *)

Lemma is_closed_In c s : is_closed c s = true <-> In (Socket c) (released s).
Proof.
  unfold is_closed. destruct (in_dec resource_eq_dec (Socket c) (released s)).
  - tauto.
  - split; [discriminate | contradiction].
Qed.

Lemma is_closed_false c s : is_closed c s = false <-> ~ In (Socket c) (released s).
Proof.
  rewrite <- is_closed_In. destruct (is_closed c s); split; congruence.
Qed.

Lemma list_in_In x l : list_in x l = true <-> In x l.
Proof.
  unfold list_in. rewrite existsb_exists. split.
  - intros [y [Hy He]]. apply Nat.eqb_eq in He. now subst.
  - intros H. exists x. split; [assumption | apply Nat.eqb_refl].
Qed.

Lemma list_remove_None x l : list_remove x l = None <-> ~ In x l.
Proof.
  induction l as [|y l IH]; simpl.
  - tauto.
  - destruct (Nat.eqb_spec x y) as [->|Hne].
    + split; [discriminate | intros H; exfalso; apply H; now left].
    + destruct (list_remove x l).
      * split; [discriminate |].
        intros H. exfalso. apply H. right.
        destruct (in_dec Nat.eq_dec x l) as [Hin|Hout]; [assumption |].
        apply IH in Hout. discriminate.
      * split; [| reflexivity].
        intros _ [Heq|Hin]; [congruence |].
        now apply (proj1 IH).
Qed.

(** The first [x] is the one after a prefix that has none. *)
Lemma list_remove_app x pre l :
  ~ In x pre -> list_remove x (pre ++ x :: l) = Some (pre ++ l).
Proof.
  induction pre as [|y pre IH]; simpl; intros Hn.
  - now rewrite Nat.eqb_refl.
  - destruct (Nat.eqb_spec x y) as [->|Hne].
    + exfalso. apply Hn. now left.
    + rewrite IH; [reflexivity | tauto].
Qed.

Lemma list_remove_In x l r y :
  list_remove x l = Some r -> In y r -> In y l.
Proof.
  revert r. induction l as [|z l IH]; simpl; intros r H Hy.
  - discriminate.
  - destruct (Nat.eqb x z).
    + inversion H; subst. now right.
    + destruct (list_remove x l) as [r'|]; [| discriminate].
      inversion H; subst. destruct Hy as [->|Hy]; [now left |].
      right. eapply IH; [reflexivity | assumption].
Qed.

Lemma list_remove_NoDup x l r :
  NoDup l -> list_remove x l = Some r -> NoDup r /\ ~ In x r.
Proof.
  revert r. induction l as [|z l IH]; simpl; intros r Hnd H.
  - discriminate.
  - inversion Hnd as [|? ? Hz Hl]; subst.
    destruct (Nat.eqb_spec x z) as [->|Hne].
    + inversion H; subst. now split.
    + destruct (list_remove x l) as [r'|] eqn:E; [| discriminate].
      inversion H; subst. destruct (IH r' Hl eq_refl) as [Hr Hx].
      split.
      * constructor; [| assumption].
        intros Hin. apply Hz. eapply list_remove_In; eassumption.
      * intros [Heq|Hin]; [congruence | contradiction].
Qed.

(** ** The fan-out *)

Lemma forward_to_client_eq message wr c t :
  forward_to_client message wr c t = (Ret tt, after_write message wr c t).
Proof.
  unfold forward_to_client, after_write, write_fails, client_write, try_except,
    except_Exception, try_pass, try_except, clients_remove, sock_close, bind, get,
    log, modify, ret, raise.
  destruct (is_closed c t) eqn:Hc; simpl.
  - destruct (list_remove c (clients t)); simpl.
    + unfold is_closed in *. simpl.
      destruct (in_dec resource_eq_dec (Socket c) (released t)); [reflexivity | discriminate].
    + reflexivity.
  - destruct (wr c); simpl; [reflexivity |].
    destruct (list_remove c (clients t)); simpl; [| reflexivity].
    unfold is_closed in *. simpl.
    destruct (in_dec resource_eq_dec (Socket c) (released t)); [discriminate |].
    simpl. destruct (in_dec Nat.eq_dec c (faulty t)); reflexivity.
Qed.

Lemma for_each_forward message wr l t :
  for_each l (forward_to_client message wr) t =
  (Ret tt, fold_left (fun t c => after_write message wr c t) l t).
Proof.
  revert t. induction l as [|c l IH]; intros t; simpl.
  - reflexivity.
  - unfold bind. rewrite forward_to_client_eq. apply IH.
Qed.

Section FanOut.
Variable s : State.
Variable wr : sock -> write_outcome.
Variable message : bytes.

Local Abbreviation ok := (keeps s wr).
Local Abbreviation F := (write_to message wr).

Lemma write_fails_stable t c :
  fan_out_inv s wr t -> write_fails t wr c = write_fails s wr c.
Proof.
  intros [H1 H2]. unfold write_fails at 1.
  destruct (is_closed c t) eqn:Hc; simpl.
  - symmetry. now apply H1.
  - unfold write_fails. destruct (is_closed c s) eqn:Hs; [| reflexivity].
    apply H2 in Hs. congruence.
Qed.

Lemma after_write_step pre c l t :
  fan_out_inv s wr t ->
  clients t = filter ok pre ++ c :: l ->
  fan_out_inv s wr (F t c) /\
  clients (F t c) = filter ok (pre ++ [c]) ++ l /\
  trace (F t c) = trace t ++ [attempt s wr message c] /\
  (forall x, In x (released (F t c)) <->
             In x (released t) \/ (x = Socket c /\ write_fails s wr c = true)).
Proof.
  intros Hinv Hcl. unfold F, after_write, attempt.
  rewrite (write_fails_stable t c Hinv).
  rewrite filter_app. simpl. unfold ok at 2.
  destruct (write_fails s wr c) eqn:Hf; simpl.
  - assert (Hnot : ~ In c (filter ok pre)).
    { intros Hin. apply filter_In in Hin. destruct Hin as [_ Hin].
      unfold ok in Hin. rewrite Hf in Hin. discriminate. }
    rewrite Hcl, (list_remove_app c _ l Hnot), app_nil_r.
    destruct Hinv as [H1 H2].
    destruct (is_closed c t) eqn:Hc; simpl.
    + repeat split; try assumption.
      * tauto.
      * intros [Hx|[-> _]]; [assumption | now apply is_closed_In].
    + repeat split.
      * intros c' Hc'. apply is_closed_In in Hc'. simpl in Hc'.
        apply in_app_or in Hc'. destruct Hc' as [Hc'|[Hc'|[]]].
        -- apply H1. now apply is_closed_In.
        -- inversion Hc'; subst. assumption.
      * intros c' Hc'. apply is_closed_In. simpl. apply in_or_app. left.
        apply is_closed_In. now apply H2.
      * intros Hx. apply in_app_or in Hx. destruct Hx as [Hx|[Hx|[]]]; auto.
      * intros [Hx|[-> _]]; apply in_or_app; [now left | right; now left].
  - split; [exact Hinv |]. split; [| split].
    + rewrite Hcl. now rewrite <- app_assoc.
    + reflexivity.
    + intros x. split; [tauto |].
      intros [Hx|[_ Hx]]; [assumption | discriminate].
Qed.

Lemma fold_after_write l : forall pre t,
  fan_out_inv s wr t ->
  clients t = filter ok pre ++ l ->
  clients (fold_left F l t) = filter ok (pre ++ l) /\
  trace (fold_left F l t) = trace t ++ map (attempt s wr message) l /\
  (forall x, In x (released (fold_left F l t)) <->
             In x (released t) \/
             exists c, x = Socket c /\ In c l /\ write_fails s wr c = true).
Proof.
  induction l as [|c l IH]; intros pre t Hinv Hcl; simpl.
  - rewrite !app_nil_r in *. repeat split; try assumption.
    + tauto.
    + intros [Hx|[c [_ [[] _]]]]. assumption.
  - destruct (after_write_step pre c l t Hinv Hcl) as [Hinv' [Hcl' [Htr Hrel]]].
    destruct (IH (pre ++ [c]) (F t c) Hinv' Hcl') as [Hc [Ht Hr]].
    repeat split.
    + rewrite Hc. now rewrite <- app_assoc.
    + rewrite Ht, Htr. now rewrite <- app_assoc.
    + intros Hx. apply Hr in Hx. destruct Hx as [Hx|[c' [-> [Hin Hf]]]].
      * apply Hrel in Hx. destruct Hx as [Hx|[-> Hf]]; [now left |].
        right. exists c. auto.
      * right. exists c'. auto.
    + intros Hx. apply Hr. destruct Hx as [Hx|[c' [-> [[->|Hin] Hf]]]].
      * left. apply Hrel. now left.
      * left. apply Hrel. right. auto.
      * right. exists c'. auto.
Qed.
End FanOut.

Lemma fan_out_eq message wr t :
  fan_out message wr t = (Ret tt, exec (fan_out message wr) t).
Proof.
  unfold exec, fan_out, bind, get. now rewrite for_each_forward.
Qed.

Lemma fan_out_facts (message : bytes) (wr : sock -> write_outcome) (s : State) :
  let s' := exec (fan_out message wr) s in
  clients s' = filter (fun c => negb (write_fails s wr c)) (clients s) /\
  trace s' = trace s ++ map (attempt s wr message) (clients s) /\
  (forall x, In x (released s') <->
             In x (released s) \/
             exists c, x = Socket c /\ In c (clients s) /\ write_fails s wr c = true).
Proof.
  unfold exec, fan_out, bind, get. rewrite for_each_forward. simpl.
  assert (Hinv : fan_out_inv s wr s).
  { split; [| tauto]. intros c Hc. unfold write_fails. now rewrite Hc. }
  exact (fold_after_write s wr message (clients s) [] s Hinv eq_refl).
Qed.

Lemma after_write_frame message wr c t :
  fresh (after_write message wr c t) = fresh t /\
  spawned (after_write message wr c t) = spawned t.
Proof.
  unfold after_write. destruct (write_fails t wr c); [| now split].
  destruct (list_remove c (clients t)); [| now split].
  destruct (is_closed c t); now split.
Qed.

Lemma fan_out_frame message wr t :
  fresh (exec (fan_out message wr) t) = fresh t /\
  spawned (exec (fan_out message wr) t) = spawned t.
Proof.
  unfold exec, fan_out, bind, get. rewrite for_each_forward. simpl.
  generalize (clients t) as l. intros l. revert t.
  induction l as [|c l IH]; intros t; simpl; [now split |].
  destruct (IH (after_write message wr c t)) as [H1 H2].
  destruct (after_write_frame message wr c t) as [H3 H4].
  split; congruence.
Qed.

(** C3. One fan-out, for any message, any behaviour of the sockets and
    any state: no exception leaves it; the clients removed from
    [self.clients] are exactly those whose write failed, the others stay
    in their order; every client of the snapshot gets one write of the
    message, in snapshot order, with the outcome its own socket gives
    (a failure before it changes nothing for it); and the sockets closed
    by the fan-out are exactly those of the clients whose write failed. *)
Theorem fan_out_prunes_exactly_failed (message : bytes)
    (wr : sock -> write_outcome) (s : State) :
  let s' := exec (fan_out message wr) s in
  result (fan_out message wr) s = Ret tt /\
  clients s' = filter (fun c => negb (write_fails s wr c)) (clients s) /\
  trace s' = trace s ++ map (attempt s wr message) (clients s) /\
  (forall c, In (Socket c) (released s') <->
             In (Socket c) (released s) \/
             (In c (clients s) /\ write_fails s wr c = true)).
Proof.
  destruct (fan_out_facts message wr s) as [Hc [Ht Hr]].
  split; [unfold result; now rewrite fan_out_eq |].
  split; [exact Hc |]. split; [exact Ht |].
  intros c. rewrite Hr. split.
  - intros [H|[c' [Heq [Hin Hf]]]]; [now left |].
    inversion Heq; subst. right. auto.
  - intros [H|[Hin Hf]]; [now left |]. right. exists c. auto.
Qed.

(** ** Stopping *)

Lemma try_pass_close c t :
  try_pass (sock_close c) t = (Ret tt, close_state c t).
Proof.
  unfold try_pass, try_except, sock_close, close_state, bind, get, modify, ret, raise.
  destruct (is_closed c t); simpl; [reflexivity |].
  destruct (in_dec Nat.eq_dec c (faulty t)); reflexivity.
Qed.

Lemma for_each_close l t :
  for_each l (fun c => try_pass (sock_close c)) t = (Ret tt, close_all l t).
Proof.
  revert t. induction l as [|c l IH]; intros t; simpl.
  - reflexivity.
  - unfold bind. rewrite try_pass_close. apply IH.
Qed.

Lemma stop_bridge_eq s : stop_bridge s = (Ret tt, stop_state s).
Proof.
  unfold stop_bridge, stop_state, bind, modify, get. simpl.
  destruct (server_socket s) as [l|]; simpl.
  - rewrite try_pass_close, for_each_close. simpl.
    destruct (websocket (close_all _ _)) eqn:Hw; simpl; [| reflexivity].
    unfold try_pass, try_except, create_task, bind, get, modify, ret, raise. simpl.
    destruct (event_loop (close_all _ _)); reflexivity.
  - unfold ret at 1. rewrite for_each_close. simpl.
    destruct (websocket (close_all _ _)) eqn:Hw; simpl; [| reflexivity].
    unfold try_pass, try_except, create_task, bind, get, modify, ret, raise. simpl.
    destruct (event_loop (close_all _ _)); reflexivity.
Qed.

Lemma set_released_same t : set_released (released t) t = t.
Proof. now destruct t. Qed.

Lemma set_released_close v c t :
  set_released v (close_state c t) = set_released v t.
Proof. unfold close_state. now destruct (is_closed c t). Qed.

Lemma close_all_frame l : forall t,
  close_all l t = set_released (released (close_all l t)) t.
Proof.
  induction l as [|c l IH]; intros t.
  - symmetry. apply set_released_same.
  - change (close_all (c :: l) t) with (close_all l (close_state c t)).
    rewrite IH at 1. apply set_released_close.
Qed.

(** Closing a list of sockets gives back, once each, those that were
    still open, and nothing else. *)
Lemma close_all_released l : forall t,
  exists extra,
    released (close_all l t) = released t ++ extra /\
    NoDup extra /\
    (forall x, In x extra -> ~ In x (released t) /\ exists c, x = Socket c /\ In c l) /\
    (forall c, In c l -> In (Socket c) (released t ++ extra)).
Proof.
  induction l as [|c l IH]; intros t.
  - exists []. simpl. rewrite app_nil_r.
    repeat split; [constructor | contradiction | contradiction | contradiction].
  - unfold close_all. simpl. fold (close_all l (close_state c t)).
    destruct (IH (close_state c t)) as [ex [Hr [Hnd [Hnew Hall]]]].
    unfold close_state in *. destruct (is_closed c t) eqn:Hc.
    + exists ex. split; [exact Hr |]. split; [exact Hnd |]. split.
      * intros x Hx. destruct (Hnew x Hx) as [Hn [c' [-> Hin]]].
        split; [exact Hn |]. exists c'. split; [reflexivity | now right].
      * intros c' [->|Hin]; [| now apply Hall].
        apply in_or_app. left. now apply is_closed_In.
    + simpl in *. exists (Socket c :: ex).
      apply is_closed_false in Hc.
      split; [rewrite Hr, <- app_assoc; reflexivity |]. split.
      * constructor; [| exact Hnd].
        intros Hin. apply Hnew in Hin. destruct Hin as [Hn _].
        apply Hn. apply in_or_app. right. now left.
      * split.
        -- intros x [<-|Hx].
           ++ split; [exact Hc |]. exists c. split; [reflexivity | now left].
           ++ destruct (Hnew x Hx) as [Hn [c' [-> Hin]]]. split.
              ** intros H. apply Hn. apply in_or_app. now left.
              ** exists c'. split; [reflexivity | now right].
        -- intros c' [->|Hin].
           ++ apply in_or_app. right. now left.
           ++ specialize (Hall c' Hin). rewrite <- app_assoc in Hall. exact Hall.
Qed.

Lemma stop_state_facts (s : State) :
  clients (stop_state s) = [] /\
  running (stop_state s) = false /\
  (forall c, In c (clients s) -> In (Socket c) (released (stop_state s))).
Proof.
  unfold stop_state.
  set (s2 := match server_socket (set_running false s) with
             | Some l => close_state l (set_running false s)
             | None => set_running false s
             end).
  assert (Hcl : clients s2 = clients s).
  { subst s2. simpl. destruct (server_socket s); [| reflexivity].
    unfold close_state. now destruct (is_closed _ _). }
  assert (Hrun : running s2 = false).
  { subst s2. simpl. destruct (server_socket s); [| reflexivity].
    unfold close_state. now destruct (is_closed _ _). }
  destruct (close_all_released (clients s2) s2) as [ex [Hr [_ [_ Hall]]]].
  set (s4 := set_clients [] (close_all (clients s2) s2)).
  assert (H4 : clients s4 = [] /\ running s4 = false /\
               released s4 = released s2 ++ ex).
  { subst s4. simpl. rewrite close_all_frame. simpl. rewrite Hrun, Hr. auto. }
  destruct H4 as [H4c [H4r H4x]].
  assert (Hgoal : forall t, clients t = clients s4 -> running t = running s4 ->
                       released t = released s4 ->
            clients t = [] /\ running t = false /\
            (forall c, In c (clients s) -> In (Socket c) (released t))).
  { intros t E1 E2 E3. rewrite E1, E2, E3, H4c, H4r, H4x.
    repeat split. intros c Hin. apply Hall. now rewrite Hcl. }
  destruct (websocket s4); [destruct (event_loop s4) |]; now apply Hgoal.
Qed.

(** C10. From any state [stop_bridge] returns normally, and then
    [self.clients] is empty, [self.running] is [False] and the socket of
    every client that was registered has been closed. *)
Theorem stop_bridge_empties_clients (s : State) :
  let s' := exec stop_bridge s in
  result stop_bridge s = Ret tt /\
  clients s' = [] /\
  running s' = false /\
  (forall c, In c (clients s) -> In (Socket c) (released s')).
Proof.
  unfold exec, result. rewrite stop_bridge_eq. simpl.
  split; [reflexivity | apply stop_state_facts].
Qed.

Lemma releases_once_refl t t' :
  released t' = released t -> releases_once t t'.
Proof.
  intros H. exists []. rewrite app_nil_r.
  split; [exact H |]. split; [constructor | contradiction].
Qed.

Lemma releases_once_trans t1 t2 t3 :
  releases_once t1 t2 -> releases_once t2 t3 -> releases_once t1 t3.
Proof.
  intros [e1 [H1 [N1 F1]]] [e2 [H2 [N2 F2]]].
  exists (e1 ++ e2). split; [rewrite H2, H1; now rewrite app_assoc |]. split.
  - apply NoDup_app; [exact N1 | exact N2 |].
    intros x Hx Hin. apply (F2 x Hin). rewrite H1. apply in_or_app. now right.
  - intros x Hx. apply in_app_or in Hx. destruct Hx as [Hx|Hx]; [now apply F1 |].
    intros Hin. apply (F2 x Hx). rewrite H1. apply in_or_app. now left.
Qed.

Lemma close_state_once c t : releases_once t (close_state c t).
Proof.
  unfold close_state. destruct (is_closed c t) eqn:Hc.
  - now apply releases_once_refl.
  - exists [Socket c]. split; [reflexivity |]. split.
    + constructor; [intros [] | constructor].
    + intros x [<-|[]]. now apply is_closed_false.
Qed.

Lemma close_all_once l t : releases_once t (close_all l t).
Proof.
  destruct (close_all_released l t) as [ex [Hr [Hnd [Hnew _]]]].
  exists ex. split; [exact Hr |]. split; [exact Hnd |].
  intros x Hx. now apply Hnew.
Qed.

Lemma stop_state_once s : releases_once s (stop_state s).
Proof.
  unfold stop_state.
  set (s2 := match server_socket (set_running false s) with
             | Some l => close_state l (set_running false s)
             | None => set_running false s
             end).
  assert (H2 : releases_once s s2).
  { subst s2. simpl. destruct (server_socket s).
    - apply releases_once_trans with (set_running false s).
      + now apply releases_once_refl.
      + apply close_state_once.
    - now apply releases_once_refl. }
  assert (H4 : releases_once s (set_clients [] (close_all (clients s2) s2))).
  { apply releases_once_trans with s2; [exact H2 |].
    apply releases_once_trans with (close_all (clients s2) s2).
    - apply close_all_once.
    - now apply releases_once_refl. }
  destruct (websocket _); [destruct (event_loop _) |]; exact H4.
Qed.

Lemma stop_state_stopped s : stopped (stop_state s).
Proof.
  destruct (stop_state_facts s) as [Hc [Hr _]].
  split; [exact Hr |]. split; [exact Hc |].
  intros l Hl. apply is_closed_In.
  unfold stop_state in *.
  set (s2 := match server_socket (set_running false s) with
             | Some l => close_state l (set_running false s)
             | None => set_running false s
             end) in *.
  assert (Hs2 : server_socket s2 = server_socket s /\
                (forall l, server_socket s = Some l -> In (Socket l) (released s2))).
  { subst s2. simpl. destruct (server_socket s) as [l0|] eqn:E.
    - unfold close_state. destruct (is_closed l0 _) eqn:Hcl; simpl.
      + split; [exact E |]. intros l1 H1. inversion H1; subst.
        now apply is_closed_In in Hcl.
      + split; [exact E |]. intros l1 H1. inversion H1; subst.
        apply in_or_app. right. now left.
    - split; [exact E | discriminate]. }
  destruct Hs2 as [Hsrv Hin].
  destruct (close_all_released (clients s2) s2) as [ex [Hrel _]].
  set (s4 := set_clients [] (close_all (clients s2) s2)) in *.
  assert (H4 : server_socket s4 = server_socket s /\ released s4 = released s2 ++ ex).
  { subst s4. simpl. rewrite close_all_frame. simpl. now rewrite Hsrv, Hrel. }
  destruct H4 as [H4s H4r].
  assert (Hgoal : forall t, server_socket t = server_socket s4 ->
                            released t = released s4 ->
                            server_socket t = Some l -> In (Socket l) (released t)).
  { intros t E1 E2 E3. rewrite E2, H4r. apply in_or_app. left. apply Hin.
    now rewrite <- H4s, <- E1. }
  destruct (websocket s4); [destruct (event_loop s4) |];
    now apply Hgoal in Hl.
Qed.

(** Stopping a stopped bridge changes nothing but the list of tasks,
    which gets one more [websocket.close()]. *)
Lemma stop_state_again t :
  stopped t -> set_spawned (spawned t) (stop_state t) = t.
Proof.
  intros [Hr [Hc Hs]]. destruct t as [u srv ws run cl fr rel fa ev sp tr].
  simpl in *. subst. unfold stop_state. simpl.
  destruct srv as [l|]; simpl.
  - pose proof (Hs l eq_refl) as Hl.
    unfold close_state, is_closed in *. simpl in *.
    destruct (in_dec resource_eq_dec (Socket l) rel); [| discriminate].
    simpl. destruct ws; [destruct ev |]; reflexivity.
  - destruct ws; [destruct ev |]; reflexivity.
Qed.

(** C6. From any state, [stop_bridge] run twice in a row: neither call
    raises; the second leaves every attribute of the bridge and every
    resource as the first left them (only one more [websocket.close()]
    task is queued); the first call gives each resource back at most once
    and none that was given back before, the second gives back nothing;
    [close()] on a closed socket does nothing, and so does a second
    [websocket.close()]. *)
Theorem stop_bridge_idempotent (s : State) :
  let s1 := exec stop_bridge s in
  let s2 := exec stop_bridge s1 in
  result stop_bridge s = Ret tt /\
  result stop_bridge s1 = Ret tt /\
  set_spawned (spawned s1) s2 = s1 /\
  released s2 = released s1 /\
  releases_once s s1 /\
  (forall c t, is_closed c t = true -> sock_close c t = (Ret tt, t)) /\
  (forall t, exec websocket_close (exec websocket_close t) = exec websocket_close t).
Proof.
  unfold exec, result. rewrite !stop_bridge_eq. simpl.
  pose proof (stop_state_again (stop_state s) (stop_state_stopped s)) as Hagain.
  split; [reflexivity |]. split; [reflexivity |]. split; [exact Hagain |].
  split.
  { rewrite <- Hagain at 2. reflexivity. }
  split; [apply stop_state_once |]. split.
  - intros c t Hc. unfold sock_close, bind, get. now rewrite Hc.
  - intros t. unfold websocket_close, exec, bind, get, modify, ret.
    destruct (upstream_closed t) eqn:Hu; simpl.
    + now rewrite Hu.
    + unfold upstream_closed. simpl.
      destruct (in_dec resource_eq_dec Upstream (released t ++ [Upstream])) as [|Hn];
        [reflexivity |].
      exfalso. apply Hn. apply in_or_app. right. now left.
Qed.

(** ** What each turn does to the state *)

Lemma set_trace_same t : set_trace (trace t) t = t.
Proof. now destruct t. Qed.

Lemma listen_eq ok t :
  listen ok t =
  (if ok then Ret tt else Raise OSError,
   set_fresh (S (fresh t)) (set_server_socket (Some (fresh t)) t)).
Proof.
  unfold listen, bind, get, modify, ret, raise. now destruct ok.
Qed.

Lemma accept_iteration_eq ev t :
  exists r, accept_iteration ev t = (r, after_accept ev t).
Proof.
  unfold accept_iteration, after_accept, sock_accept, create_task, try_except,
    except_Exception, bind, get, modify, ret, raise.
  destruct (server_socket t); [| eexists; reflexivity].
  destruct (is_closed s t); [eexists; reflexivity |].
  destruct ev; simpl; try (eexists; reflexivity).
  destruct (event_loop t); eexists; reflexivity.
Qed.

Lemma handle_client_enter_eq c t :
  handle_client_enter c t =
  (if is_closed c t then Raise OSError else Ret tt,
   set_clients (clients t ++ [c]) t).
Proof.
  unfold handle_client_enter, sock_settimeout, bind, get, modify, ret, raise.
  simpl. unfold is_closed. simpl.
  now destruct (in_dec resource_eq_dec (Socket c) (released t)).
Qed.

Lemma handle_client_cleanup_eq c t :
  handle_client_cleanup c t = (Ret tt, after_cleanup c t).
Proof.
  unfold handle_client_cleanup, after_cleanup, close_state, try_pass, try_except,
    sock_close, clients_remove, bind, get, modify, ret, raise.
  destruct (is_closed c t) eqn:Hc; simpl.
  - destruct (list_in c (clients t)) eqn:Hin; simpl.
    + destruct (list_remove c (clients t)) eqn:Hr; [reflexivity |].
      apply list_remove_None in Hr. apply list_in_In in Hin. contradiction.
    + destruct (list_remove c (clients t)) eqn:Hr; [| reflexivity].
      assert (Hn : ~ In c (clients t)).
      { intros H. apply list_in_In in H. congruence. }
      apply list_remove_None in Hn. congruence.
  - destruct (in_dec Nat.eq_dec c (faulty t)); simpl; [reflexivity |].
    destruct (list_in c (clients t)) eqn:Hin; simpl.
    + destruct (list_remove c (clients t)) eqn:Hr; [reflexivity |].
      apply list_remove_None in Hr. apply list_in_In in Hin. contradiction.
    + destruct (list_remove c (clients t)) eqn:Hr; [| reflexivity].
      assert (Hn : ~ In c (clients t)).
      { intros H. apply list_in_In in H. congruence. }
      apply list_remove_None in Hn. congruence.
Qed.

Lemma read_iteration_full c ev t :
  read_iteration c ev t = after_read c ev t.
Proof.
  unfold read_iteration, after_read, sock_recv, websocket_send, log, try_except,
    except_Exception, bind, get, modify, ret, raise.
  destruct (is_closed c t); [reflexivity |].
  destruct ev as [data ok| | | |data written]; simpl; try reflexivity.
  - destruct data as [|b data]; simpl; [reflexivity |].
    destruct (ok && negb (upstream_closed t)); reflexivity.
  - destruct data as [|b data]; simpl; [reflexivity |].
    destruct (upstream_closed t); reflexivity.
Qed.

Lemma after_read_frame c ev t :
  exists tr, snd (after_read c ev t) = set_trace (trace t ++ tr) t.
Proof.
  assert (Hsame : exists tr, t = set_trace (trace t ++ tr) t).
  { exists []. now rewrite app_nil_r, set_trace_same. }
  unfold after_read. destruct (is_closed c t); [exact Hsame |].
  destruct ev as [data ok| | | |data written]; simpl; try exact Hsame.
  - destruct data; [exact Hsame | eexists; reflexivity].
  - destruct data; [exact Hsame |].
    destruct (upstream_closed t); eexists; reflexivity.
Qed.

(** A turn of the read loop only writes to the trace. *)
Lemma read_iteration_eq c ev t :
  exists r tr, read_iteration c ev t = (r, set_trace tr t).
Proof.
  rewrite read_iteration_full.
  destruct (after_read_frame c ev t) as [tr Htr].
  destruct (after_read c ev t) as [r t']. simpl in Htr. subst t'.
  now exists r, (trace t ++ tr).
Qed.

Lemma read_loop_cons c ev script t :
  read_loop c (ev :: script) t =
  if loop_condition t then
    match read_iteration c ev t with
    | (Ret true, t1) => read_loop c script t1
    | (Ret false, t1) => (Ret Exited, t1)
    | (Raise e, t1) => (Raise e, t1)
    end
  else (Ret Exited, t).
Proof.
  simpl. unfold bind at 1, get. destruct (loop_condition t); [| reflexivity].
  unfold bind. destruct (read_iteration c ev t) as [[[|]|e] t1]; reflexivity.
Qed.

Lemma forwarder_iteration_eq ev t :
  forwarder_iteration ev t = (forwarder_answer ev, after_forward ev t).
Proof.
  unfold forwarder_iteration, after_forward, try_except, bind.
  destruct ev; simpl; try reflexivity.
  now rewrite fan_out_eq.
Qed.

(** ** The registry invariant *)

Lemma handlers_app l1 l2 : handlers (l1 ++ l2) = handlers l1 ++ handlers l2.
Proof. unfold handlers. apply flat_map_app. Qed.

Lemma take_task_handlers c l : forall rest,
  take_task c l = Some rest ->
  exists h1 h2, handlers l = h1 ++ c :: h2 /\ handlers rest = h1 ++ h2.
Proof.
  induction l as [|t l IH]; intros rest H; simpl in H.
  - discriminate.
  - destruct t as [c'|].
    + destruct (Nat.eqb_spec c c') as [->|Hne].
      * inversion H; subst. exists [], (handlers rest). now split.
      * destruct (take_task c l) as [r|]; [| discriminate].
        inversion H; subst. destruct (IH r eq_refl) as [h1 [h2 [E1 E2]]].
        exists (c' :: h1), h2. simpl. now rewrite E1, E2.
    + destruct (take_task c l) as [r|]; [| discriminate].
      inversion H; subst. destruct (IH r eq_refl) as [h1 [h2 [E1 E2]]].
      exists h1, h2. simpl. now split.
Qed.

(** A turn that only takes clients out, closes sockets or makes new
    socket objects keeps the invariant. *)
Lemma registry_ok_shrink y t' rd' sv fw fin :
  registry_ok y ->
  (NoDup (clients (st y)) -> NoDup (clients t')) ->
  incl (clients t') (clients (st y)) ->
  handlers (spawned t') = handlers (spawned (st y)) ->
  fresh (st y) <= fresh t' ->
  (forall x, In x (released (st y)) -> In x (released t')) ->
  (forall c, In c (clients t') -> In c (readers y) ->
             In c rd' \/ is_closed c t' = true) ->
  registry_ok (mkSys t' sv fw rd' fin).
Proof.
  intros [N [P [B [W S]]]] HN HI HH HF HR HS. unfold registry_ok. simpl.
  split; [auto |]. split; [now rewrite HH |]. split.
  { intros c Hc. apply HI in Hc. apply B in Hc. lia. }
  split.
  { intros c Hc. rewrite HH in Hc. destruct (W c Hc) as [Hlt Hn].
    split; [lia |]. intros Hin. apply Hn. now apply HI. }
  intros c Hc. destruct (S c (HI c Hc)) as [Hrd|Hcl].
  - now apply HS.
  - right. apply is_closed_In. apply HR. now apply is_closed_In.
Qed.

Lemma after_cleanup_facts c t :
  let t' := after_cleanup c t in
  (NoDup (clients t) -> NoDup (clients t')) /\
  incl (clients t') (clients t) /\
  spawned t' = spawned t /\
  fresh t' = fresh t /\
  (forall x, In x (released t) -> In x (released t')) /\
  is_closed c t' = true.
Proof.
  assert (Hclose : forall v, is_closed c (set_clients v (close_state c t)) = true).
  { intros v. apply is_closed_In. simpl. unfold close_state.
    destruct (is_closed c t) eqn:Hc; simpl.
    - now apply is_closed_In.
    - apply in_or_app. right. now left. }
  assert (Hrel : forall x, In x (released t) -> In x (released (close_state c t))).
  { intros x Hx. unfold close_state. destruct (is_closed c t); simpl; [exact Hx |].
    apply in_or_app. now left. }
  assert (Hfr : forall v, set_clients v (close_state c t) =
                          set_released (released (close_state c t)) (set_clients v t)).
  { intros v. unfold close_state. destruct (is_closed c t); simpl; [| reflexivity].
    now destruct t. }
  assert (Hsame : close_state c t = set_clients (clients t) (close_state c t)).
  { unfold close_state. destruct (is_closed c t); now destruct t. }
  unfold after_cleanup.
  destruct (negb (is_closed c t) && _).
  - rewrite Hsame, Hfr. simpl. repeat split; auto using incl_refl.
    specialize (Hclose (clients t)). now rewrite Hfr in Hclose.
  - destruct (list_remove c (clients t)) as [l|] eqn:Hr.
    + rewrite Hfr. simpl. split.
      { intros Hnd. now destruct (list_remove_NoDup c _ _ Hnd Hr). }
      split.
      { intros x Hx. eapply list_remove_In; eassumption. }
      repeat split; auto.
      specialize (Hclose l). now rewrite Hfr in Hclose.
    + rewrite Hsame, Hfr. simpl. repeat split; auto using incl_refl.
      specialize (Hclose (clients t)). now rewrite Hfr in Hclose.
Qed.

Lemma after_forward_facts ev t :
  let t' := after_forward ev t in
  (NoDup (clients t) -> NoDup (clients t')) /\
  incl (clients t') (clients t) /\
  spawned t' = spawned t /\
  fresh t' = fresh t /\
  (forall x, In x (released t) -> In x (released t')).
Proof.
  destruct ev as [message wr| | | |]; simpl;
    [| repeat split; auto using incl_refl ..].
  destruct (fan_out_facts message wr t) as [Hc [_ Hr]].
  destruct (fan_out_frame message wr t) as [Hf Hs].
  rewrite Hc. split; [apply NoDup_filter |]. split; [apply incl_filter |].
  split; [exact Hs |]. split; [exact Hf |].
  intros x Hx. apply Hr. now left.
Qed.

Lemma stop_state_frame s :
  fresh (stop_state s) = fresh s /\
  handlers (spawned (stop_state s)) = handlers (spawned s).
Proof.
  unfold stop_state.
  set (s2 := match server_socket (set_running false s) with
             | Some l => close_state l (set_running false s)
             | None => set_running false s
             end).
  assert (H2 : fresh s2 = fresh s /\ spawned s2 = spawned s).
  { subst s2. simpl. destruct (server_socket s); [| now split].
    unfold close_state. now destruct (is_closed _ _). }
  set (s4 := set_clients [] (close_all (clients s2) s2)).
  assert (H4 : fresh s4 = fresh s /\ spawned s4 = spawned s).
  { subst s4. simpl. rewrite close_all_frame. simpl. exact H2. }
  destruct H4 as [H4f H4s].
  destruct (websocket s4); [destruct (event_loop s4) |].
  - split; [exact H4f |].
    change (handlers (spawned s4 ++ [WebsocketClose]) = handlers (spawned s)).
    rewrite handlers_app, H4s. simpl. apply app_nil_r.
  - now rewrite H4f, H4s.
  - now rewrite H4f, H4s.
Qed.

Lemma boot_registry_ok url n bad : registry_ok (boot url n bad).
Proof.
  unfold registry_ok. simpl.
  repeat split; try constructor; contradiction.
Qed.

Lemma step_registry_ok l y y' :
  registry_ok y -> step l y = Some y' -> registry_ok y'.
Proof.
  intros Hok Hstep. unfold step in Hstep.
  destruct (finished y); [discriminate |].
  destruct l as [bind_ok|ev|c|c ev|ev|].
  - (* Listen *)
    destruct (server y); try discriminate.
    rewrite listen_eq in Hstep.
    assert (H : registry_ok
                  (mkSys (set_fresh (S (fresh (st y)))
                            (set_server_socket (Some (fresh (st y))) (st y)))
                         (server y') (forwarder y) (readers y) false)).
    { apply registry_ok_shrink with (y := y); simpl;
        auto using incl_refl. }
    destruct bind_ok; inversion Hstep; subst; exact H.
  - (* Accept *)
    destruct (server y); try discriminate.
    assert (Hsame : forall sv, registry_ok (mkSys (st y) sv (forwarder y) (readers y) false)).
    { intros sv. apply registry_ok_shrink with (y := y); auto using incl_refl. }
    destruct (running (st y)); [| inversion Hstep; subst; apply Hsame].
    destruct (accept_iteration_eq ev (st y)) as [r Hb]. rewrite Hb in Hstep.
    assert (H : forall sv, registry_ok (mkSys (after_accept ev (st y)) sv
                                              (forwarder y) (readers y) false)).
    { intros sv. unfold after_accept.
      destruct (server_socket (st y)); [| apply Hsame].
      destruct (is_closed s (st y)); [apply Hsame |].
      destruct ev; try apply Hsame.
      destruct (event_loop (st y)).
      - destruct Hok as [N [P [B [W S]]]]. unfold registry_ok. simpl.
        rewrite handlers_app. simpl.
        split; [exact N |]. split.
        { apply NoDup_app; [exact P | constructor; [intros [] | constructor] |].
          intros a Ha [<-|[]]. apply W in Ha. lia. }
        split; [intros c Hc; apply B in Hc; lia |]. split.
        { intros c Hc. apply in_app_or in Hc. destruct Hc as [Hc|[<-|[]]].
          - destruct (W c Hc). split; [lia | assumption].
          - split; [lia |]. intros Hin. apply B in Hin. lia. }
        exact S.
      - apply registry_ok_shrink with (y := y); simpl; auto using incl_refl. }
    destruct r as [[|]|e]; inversion Hstep; subst; apply H.
  - (* Start *)
    destruct (take_task c (spawned (st y))) as [rest|] eqn:Htake; [| discriminate].
    destruct (take_task_handlers c _ rest Htake) as [h1 [h2 [E1 E2]]].
    destruct Hok as [N [P [B [W S]]]].
    rewrite E1 in P. pose proof (NoDup_remove _ _ _ P) as [P' Hc12].
    assert (Hc : In c (handlers (spawned (st y)))).
    { rewrite E1. apply in_or_app. right. now left. }
    destruct (W c Hc) as [Hlt Hnew].
    assert (Hsub : forall x, In x (h1 ++ h2) -> In x (handlers (spawned (st y)))).
    { intros x Hx. rewrite E1. apply in_app_or in Hx. apply in_or_app.
      destruct Hx; [now left | right; now right]. }
    rewrite handle_client_enter_eq in Hstep.
    change (is_closed c (set_spawned rest (st y))) with (is_closed c (st y)) in Hstep.
    destruct (is_closed c (st y)) eqn:Hcl; inversion Hstep; subst; clear Hstep.
    + (* settimeout raised: the finally block takes the client out again *)
      unfold exec. rewrite handle_client_cleanup_eq. simpl.
      unfold after_cleanup, close_state.
      change (is_closed c (set_clients (clients (st y) ++ [c]) (set_spawned rest (st y))))
        with (is_closed c (st y)).
      rewrite Hcl. simpl.
      rewrite (list_remove_app c (clients (st y)) [] Hnew), app_nil_r.
      unfold registry_ok. simpl. rewrite E2.
      split; [exact N |]. split; [exact P' |]. split; [exact B |]. split.
      * intros x Hx. now apply W, Hsub.
      * exact S.
    + unfold registry_ok. simpl. rewrite E2.
      split.
      { apply NoDup_app; [exact N | constructor; [intros [] | constructor] |].
        intros a Ha [<-|[]]. contradiction. }
      split; [exact P' |]. split.
      { intros x Hx. apply in_app_or in Hx. destruct Hx as [Hx|[<-|[]]]; auto. }
      split.
      { intros x Hx. destruct (W x (Hsub x Hx)) as [Hx1 Hx2].
        split; [exact Hx1 |]. intros Hin. apply in_app_or in Hin.
        destruct Hin as [Hin|[<-|[]]]; contradiction. }
      intros x Hx. apply in_app_or in Hx. destruct Hx as [Hx|[<-|[]]].
      * destruct (S x Hx) as [Hr|Hr]; [left; apply in_or_app; now left | now right].
      * left. apply in_or_app. right. now left.
  - (* Read *)
    destruct (list_in c (readers y)); [| discriminate].
    assert (Hleave : forall tr,
      registry_ok (mkSys (exec (handle_client_cleanup c) (set_trace tr (st y)))
                         (server y) (forwarder y)
                         (remove Nat.eq_dec c (readers y)) false)).
    { intros tr. unfold exec. rewrite handle_client_cleanup_eq. simpl.
      destruct (after_cleanup_facts c (set_trace tr (st y)))
        as [F1 [F2 [F3 [F4 [F5 F6]]]]].
      apply registry_ok_shrink with (y := y); auto.
      - now rewrite F3.
      - rewrite F4. apply Nat.le_refl.
      - intros x Hx Hr. destruct (Nat.eq_dec x c) as [->|Hne].
        + now right.
        + left. now apply in_in_remove. }
    destruct (loop_condition (st y)).
    + destruct (read_iteration_eq c ev (st y)) as [r [tr Hb]]. rewrite Hb in Hstep.
      destruct r as [[|]|e]; inversion Hstep; subst; [| apply Hleave ..].
      apply registry_ok_shrink with (y := y); simpl; auto using incl_refl.
    + inversion Hstep; subst. rewrite <- (set_trace_same (st y)). apply Hleave.
  - (* Forward *)
    destruct (forwarder y); [| discriminate].
    assert (Hsame : forall fw, registry_ok (mkSys (st y) (server y) fw (readers y) false)).
    { intros fw. apply registry_ok_shrink with (y := y); auto using incl_refl. }
    destruct (loop_condition (st y)); [| inversion Hstep; subst; apply Hsame].
    rewrite forwarder_iteration_eq in Hstep.
    destruct (after_forward_facts ev (st y)) as [F1 [F2 [F3 [F4 F5]]]].
    assert (H : forall fw, registry_ok (mkSys (after_forward ev (st y)) (server y) fw
                                              (readers y) false)).
    { intros fw. apply registry_ok_shrink with (y := y); auto.
      - now rewrite F3.
      - rewrite F4. apply Nat.le_refl. }
    destruct ev; cbn in Hstep; inversion Hstep; subst; apply H.
  - (* Return *)
    destruct (server y); try discriminate.
    destruct (forwarder y); [discriminate |].
    inversion Hstep; subst. unfold exec. rewrite stop_bridge_eq. simpl.
    destruct (stop_state_facts (st y)) as [Hc [_ _]].
    destruct (stop_state_frame (st y)) as [Hf Hh].
    destruct (stop_state_once (st y)) as [ex [Hr _]].
    apply registry_ok_shrink with (y := y); [exact Hok | | | exact Hh | | |].
    + rewrite Hc. constructor.
    + rewrite Hc. intros x [].
    + rewrite Hf. apply Nat.le_refl.
    + intros x Hx. rewrite Hr. apply in_or_app. now left.
    + rewrite Hc. intros x [].
Qed.

Lemma run_registry_ok ls : forall y y',
  registry_ok y -> run ls y = Some y' -> registry_ok y'.
Proof.
  induction ls as [|l ls IH]; intros y y' Hok Hrun; simpl in Hrun.
  - inversion Hrun; subst. exact Hok.
  - destruct (step l y) as [y1|] eqn:Hs; [| discriminate].
    apply (IH y1); [| exact Hrun]. eapply step_registry_ok; eassumption.
Qed.

(** ** The active-client set *)

(** C8. In every state the tasks of the bridge can reach, whatever the
    listener, the clients and the upstream do, no socket is in
    [self.clients] twice.  Both places that take a client out (the
    [finally] block of [handle_client] and the pruning in the fan-out)
    return normally in every state, leave [self.clients] as it is when
    the client is not in it, and return normally when run again. *)
Theorem clients_never_twice (url : string) (n : sock) (bad : list sock)
    (ls : list label) (y : Sys) :
  run ls (boot url n bad) = Some y ->
  NoDup (clients (st y)) /\
  (forall c t,
     let t' := exec (handle_client_cleanup c) t in
     result (handle_client_cleanup c) t = Ret tt /\
     result (handle_client_cleanup c) t' = Ret tt /\
     (~ In c (clients t) -> clients t' = clients t)) /\
  (forall message wr c t,
     let t' := exec (forward_to_client message wr c) t in
     result (forward_to_client message wr c) t = Ret tt /\
     result (forward_to_client message wr c) t' = Ret tt /\
     (~ In c (clients t) -> clients t' = clients t)).
Proof.
  intros Hrun.
  pose proof (run_registry_ok ls _ _ (boot_registry_ok url n bad) Hrun) as [N _].
  split; [exact N |]. split.
  - intros c t t'. subst t'. unfold exec, result.
    rewrite !handle_client_cleanup_eq. simpl.
    split; [reflexivity |]. split; [reflexivity |].
    intros Hn. apply list_remove_None in Hn.
    unfold after_cleanup. rewrite Hn.
    assert (H : clients (close_state c t) = clients t).
    { unfold close_state. now destruct (is_closed c t). }
    now destruct (negb (is_closed c t) && _).
  - intros message wr c t t'. subst t'. unfold exec, result.
    rewrite !forward_to_client_eq. simpl.
    split; [reflexivity |]. split; [reflexivity |].
    intros Hn. apply list_remove_None in Hn.
    unfold after_write. rewrite Hn. now destruct (write_fails t wr c).
Qed.



(** ** Who holds the event loop *)

Lemma turn_step l z z' :
  turn l z = Some z' ->
  may_take l z = true /\
  step l (sys z) = Some (sys z') /\
  holding z' = holds_after l (sys z').
Proof.
  unfold turn. destruct (may_take l z); [| discriminate].
  destruct (step l (sys z)); [| discriminate].
  intros H. inversion H; subst. simpl. auto.
Qed.


Lemma turns_cons l ls z :
  turns (l :: ls) z =
  match turn l z with
  | Some z' => turns ls z'
  | None => None
  end.
Proof. reflexivity. Qed.

Lemma turns_repeat_same l z :
  turn l z = Some z -> forall k, turns (repeat l k) z = Some z.
Proof.
  intros H k. induction k as [|k IH]; [reflexivity |].
  change (repeat l (S k)) with (l :: repeat l k). now rewrite turns_cons, H.
Qed.

(** Only the listener's own turns move the listener. *)
Lemma step_server l y y' :
  step l y = Some y' ->
  (forall b, l <> Listen b) -> (forall ev, l <> Accept ev) ->
  server y' = server y.
Proof.
  intros Hstep HL HA. unfold step in Hstep.
  destruct (finished y); [discriminate |].
  destruct l as [bind_ok|ev|c|c ev|ev|].
  - now contradiction (HL bind_ok).
  - now contradiction (HA ev).
  - destruct (take_task c (spawned (st y))); [| discriminate].
    destruct (handle_client_enter c _) as [[u|e] s']; now inversion Hstep.
  - destruct (list_in c (readers y)); [| discriminate].
    destruct (loop_condition (st y)); [| now inversion Hstep].
    destruct (read_iteration c ev (st y)) as [[[|]|e] s']; now inversion Hstep.
  - destruct (forwarder y); [| discriminate].
    destruct (loop_condition (st y)); [| now inversion Hstep].
    destruct (forwarder_iteration ev (st y)) as [[[|]|e] s']; now inversion Hstep.
  - destruct (server y); try discriminate.
    destruct (forwarder y); [discriminate |]. now inversion Hstep.
Qed.

(** The accept loop is running exactly while the listener holds the
    loop: no other task has a turn before [start_tcp_server] is over. *)
Lemma turn_listener l z z' :
  (server (sys z) = Accepting <-> holding z = Listener) ->
  turn l z = Some z' ->
  (server (sys z') = Accepting <-> holding z' = Listener).
Proof.
  intros Hok Ht. destruct (turn_step l z z' Ht) as [Hm [Hs Hh]].
  assert (Hother : (forall b, l <> Listen b) -> (forall ev, l <> Accept ev) ->
                   holding z' <> Listener ->
                   (server (sys z') = Accepting <-> holding z' = Listener)).
  { intros HL HA Hn. rewrite (step_server l _ _ Hs HL HA).
    split; [| intros H; contradiction].
    intros H. apply Hok in H. unfold may_take in Hm. rewrite H in Hm.
    destruct l; try discriminate. now contradiction (HA ev). }
  destruct l as [bind_ok|ev|c|c ev|ev|]; simpl in Hh.
  - rewrite Hh. destruct (server (sys z')); split; congruence.
  - rewrite Hh. destruct (server (sys z')); split; congruence.
  - apply Hother; try discriminate. rewrite Hh.
    destruct (list_in c (readers (sys z'))); discriminate.
  - apply Hother; try discriminate. rewrite Hh.
    destruct ev; try discriminate.
    destruct (list_in c (readers (sys z'))); discriminate.
  - apply Hother; try discriminate. now rewrite Hh.
  - apply Hother; try discriminate. now rewrite Hh.
Qed.

Lemma turns_listener ls : forall z z',
  (server (sys z) = Accepting <-> holding z = Listener) ->
  turns ls z = Some z' ->
  (server (sys z') = Accepting <-> holding z' = Listener).
Proof.
  induction ls as [|l ls IH]; intros z z' Hok H; simpl in H.
  - now inversion H; subst.
  - destruct (turn l z) as [z1|] eqn:Ht; [| discriminate].
    apply (IH z1); [| exact H]. eapply turn_listener; eassumption.
Qed.

Lemma boot_loop_listener url n bad :
  server (sys (boot_loop url n bad)) = Accepting <->
  holding (boot_loop url n bad) = Listener.
Proof. simpl. split; discriminate. Qed.

(** While a handler holds the loop only its own read loop goes on. *)
Lemma handler_keeps_loop c z l z' :
  holding z = Handler c -> turn l z = Some z' -> exists ev, l = Read c ev.
Proof.
  intros Hh Ht. destruct (turn_step l z z' Ht) as [Hm _].
  unfold may_take in Hm. rewrite Hh in Hm.
  destruct l as [| | |c' ev| |]; try discriminate.
  apply Nat.eqb_eq in Hm. subst c'. now exists ev.
Qed.


(** ** When the upstream session closes *)

Lemma close_state_server_socket c t :
  server_socket (close_state c t) = server_socket t.
Proof. unfold close_state. now destruct (is_closed c t). Qed.

Lemma stop_state_server_socket s :
  server_socket (stop_state s) = server_socket s.
Proof.
  unfold stop_state.
  set (s2 := match server_socket (set_running false s) with
             | Some l => close_state l (set_running false s)
             | None => set_running false s
             end).
  assert (H2 : server_socket s2 = server_socket s).
  { subst s2. destruct (server_socket (set_running false s)).
    - now rewrite close_state_server_socket.
    - reflexivity. }
  set (s4 := set_clients [] (close_all (clients s2) s2)).
  assert (H4 : server_socket s4 = server_socket s).
  { subst s4. simpl. rewrite close_all_frame. exact H2. }
  destruct (websocket s4); [destruct (event_loop s4) |]; exact H4.
Qed.

(** C2, as the code has it.  When [websocket.recv()] raises
    [ConnectionClosed] the forwarder leaves its loop and that is all it
    does: the state of the bridge and of every socket is what it was
    and the read loops are where they were.  The accept loop has ended
    by then, since [start_tcp_server] runs from its first line to its
    last before the forwarder has a turn at all.  So both tasks of
    [asyncio.gather] are over and [run_bridge] can return; when it does,
    [main] calls [stop_bridge], which clears the running flag, empties
    [self.clients] and closes the listener and the socket of every
    registered client. *)
Theorem upstream_close_ends_forwarder_only (url : string) (n : sock)
    (bad : list sock) (ls : list label) (z z' : Loop) :
  turns ls (boot_loop url n bad) = Some z ->
  turn (Forward WsConnectionClosed) z = Some z' ->
  server (sys z) = Done /\
  st (sys z') = st (sys z) /\
  server (sys z') = Done /\
  readers (sys z') = readers (sys z) /\
  forwarder (sys z') = false /\
  holding z' = Free /\
  exists w,
    turn Return z' = Some w /\
    st (sys w) = exec stop_bridge (st (sys z)) /\
    running (st (sys w)) = false /\
    clients (st (sys w)) = [] /\
    (forall c, In c (clients (st (sys z))) -> is_closed c (st (sys w)) = true) /\
    (forall l, server_socket (st (sys z)) = Some l ->
               is_closed l (st (sys w)) = true).
Proof.
  intros Hrun Ht.
  pose proof (turns_listener ls _ _ (boot_loop_listener url n bad) Hrun) as Hl.
  destruct (turn_step _ z z' Ht) as [Hm [Hs Hh]].
  assert (Hfree : holding z = Free).
  { unfold may_take in Hm. now destruct (holding z). }
  assert (Hdone : server (sys z) = Done).
  { unfold may_take in Hm. rewrite Hfree in Hm.
    destruct (server (sys z)); [discriminate | | reflexivity].
    destruct Hl as [Hl _]. rewrite (Hl eq_refl) in Hfree. discriminate. }
  unfold step in Hs.
  destruct (finished (sys z)) eqn:Hfin; [discriminate |].
  destruct (forwarder (sys z)); [| discriminate].
  assert (Hy : sys z' = mkSys (st (sys z)) (server (sys z)) false
                              (readers (sys z)) false).
  { destruct (loop_condition (st (sys z))).
    - rewrite forwarder_iteration_eq in Hs. now inversion Hs.
    - now inversion Hs. }
  rewrite Hy. cbn [st server readers forwarder].
  split; [exact Hdone |]. split; [reflexivity |]. split; [exact Hdone |].
  split; [reflexivity |]. split; [reflexivity |]. split; [exact Hh |].
  exists (mkLoop (mkSys (exec stop_bridge (st (sys z))) Done false
                        (readers (sys z)) true) Free).
  split.
  { unfold turn, may_take. rewrite Hh, Hy. unfold step. simpl.
    now rewrite Hdone. }
  cbn [sys st]. unfold exec. rewrite stop_bridge_eq. cbn [snd].
  split; [reflexivity |].
  destruct (stop_state_facts (st (sys z))) as [Hc [Hr Hall]].
  split; [exact Hr |]. split; [exact Hc |]. split.
  - intros c Hin. apply is_closed_In. now apply Hall.
  - intros l Hsrv. apply stop_state_stopped.
    now rewrite stop_state_server_socket.
Qed.

(** ** Finding the upstream URL *)

Lemma prefix_app needle : forall hay,
  String.prefix needle hay = true -> exists rest, hay = (needle ++ rest)%string.
Proof.
  induction needle as [|c needle IH]; intros hay H.
  - now exists hay.
  - destruct hay as [|c' hay]; simpl in H; [discriminate |].
    destruct (ascii_dec c c') as [->|]; [| discriminate].
    destruct (IH hay H) as [rest ->]. now exists rest.
Qed.

Lemma has_char_app c s1 s2 :
  has_char c (s1 ++ s2) = has_char c s1 || has_char c s2.
Proof.
  induction s1 as [|c' s1 IH]; simpl; [reflexivity |].
  rewrite IH. apply orb_assoc.
Qed.

Lemma contains_has_char c needle : forall hay,
  has_char c needle = true -> contains needle hay = true -> has_char c hay = true.
Proof.
  induction hay as [|c' hay IH]; intros Hn Hc.
  - destruct needle; simpl in *; discriminate.
  - change (contains needle (String c' hay))
      with (String.prefix needle (String c' hay) || contains needle hay) in Hc.
    apply orb_true_iff in Hc. destruct Hc as [Hp|Hc].
    + destruct (prefix_app _ _ Hp) as [rest E]. rewrite E, has_char_app, Hn.
      reflexivity.
    + simpl. rewrite (IH Hn Hc). apply orb_true_r.
Qed.

Lemma is_key_line_has_eq line :
  is_key_line line = true -> has_char "="%char line = true.
Proof.
  unfold is_key_line. intros H. apply orb_true_iff in H.
  destruct H as [H|H]; eapply contains_has_char; try exact H; reflexivity.
Qed.

(** Cutting at the first [=]: nothing before the cut is a [=]. *)
Lemma split_once_first : forall s,
  has_char "="%char s = true ->
  exists before after,
    s = (before ++ String "="%char after)%string /\
    has_char "="%char before = false /\
    split_once "="%char s = [before; after].
Proof.
  induction s as [|c s IH]; simpl; intros H; [discriminate |].
  destruct (Ascii.eqb c "="%char) eqn:E.
  - apply Ascii.eqb_eq in E. subst. exists EmptyString, s. now split.
  - simpl in H. destruct (IH H) as [before [after [Hs [Hb Hsp]]]].
    exists (String c before), after. simpl. rewrite Hsp, E, Hb, <- Hs. now split.
Qed.

Lemma scan_lines_skip pre : forall rest,
  Forall (fun l => is_key_line l = false) pre ->
  scan_lines (pre ++ rest) = scan_lines rest.
Proof.
  induction pre as [|l pre IH]; intros rest H; simpl; [reflexivity |].
  inversion H; subst. rewrite H2. now apply IH.
Qed.

(** C7. With the environment variable set to a non-empty value that
    value is the URL and the file is not opened.  Without it (unset, or
    set to the empty string, which Python takes for false) the file is
    read: the first line holding one of the two keys decides, later
    lines are not looked at, and the URL is what follows the first [=]
    of that line, stripped of surrounding blanks and then of surrounding
    double quotes. *)
Theorem url_discovery_order (file : conn_file) (pre post : list string)
    (line : string) :
  file = FileLines (pre ++ line :: post) ->
  Forall (fun l => is_key_line l = false) pre ->
  is_key_line line = true ->
  (forall u other, truthy (Some u) = true ->
                   discover (Some u) other = (Ret (Some u), [])) /\
  exists before after,
    line = (before ++ String "="%char after)%string /\
    has_char "="%char before = false /\
    forall env, truthy env = false ->
      discover env file = (Ret (Some (strip_quotes (strip after))), [OpenFile]).
Proof.
  intros -> Hpre Hline. split.
  - intros u other Hu. unfold discover. now rewrite Hu.
  - destruct (split_once_first line (is_key_line_has_eq line Hline))
      as [before [after [E [Hb Hs]]]].
    exists before, after. split; [exact E |]. split; [exact Hb |].
    intros env Henv. unfold discover. rewrite Henv.
    rewrite (scan_lines_skip pre _ Hpre). simpl.
    rewrite Hline, Hs. reflexivity.
Qed.

Lemma scan_lines_none lines :
  Forall (fun l => is_key_line l = false) lines -> scan_lines lines = Ret None.
Proof.
  intros H. rewrite <- (app_nil_r lines). now rewrite scan_lines_skip.
Qed.

(** C4. With the environment variable unset, and the connection file
    missing or without a line holding one of the two keys, [main]
    returns 1 and no connection is attempted (the bridge is not even
    made). *)
Theorem missing_url_exit_1 (file : conn_file) (run : run_outcome) :
  file = FileNotFound \/
  (exists lines, file = FileLines lines /\
                 Forall (fun l => is_key_line l = false) lines) ->
  exit_code (main None file run) = Some 1 /\
  events (main None file run) = [OpenFile] /\
  (forall u, ~ In (Connect u) (events (main None file run))).
Proof.
  intros [->|[lines [-> Hl]]].
  - simpl. repeat split. intros u [H|[]]. discriminate.
  - unfold main, discover. simpl. rewrite (scan_lines_none lines Hl). simpl.
    repeat split. intros u [H|[]]. discriminate.
Qed.

(** C5. Whatever URL was found, from the environment or the file, if it
    does not start with [wss://] then [main] returns 1 and no connection
    is attempted. *)
Theorem bad_scheme_exit_1 (env : option string) (file : conn_file)
    (run : run_outcome) (u : string) :
  fst (discover env file) = Ret (Some u) ->
  String.prefix "wss://"%string u = false ->
  exit_code (main env file run) = Some 1 /\
  (forall v, ~ In (Connect v) (events (main env file run))).
Proof.
  intros Hd Hp. unfold main.
  destruct (discover env file) as [r evs] eqn:E. simpl in Hd. subst r.
  assert (Hev : forall v, ~ In (Connect v) evs).
  { intros v. unfold discover in E. destruct (truthy env).
    - inversion E; subst. intros [].
    - destruct file; inversion E; subst; intros [H|[]]; discriminate. }
  destruct u as [|c u]; [now split |].
  rewrite Hp. now split.
Qed.

(** ** Bytes in both directions *)

Lemma upstream_received_app tr1 tr2 :
  upstream_received (tr1 ++ tr2) = upstream_received tr1 ++ upstream_received tr2.
Proof.
  induction tr1 as [|e tr1 IH]; simpl; [reflexivity |].
  destruct e as [c m r|d ok]; [exact IH |].
  destruct ok; [| exact IH]. now rewrite IH, app_assoc.
Qed.

Lemma client_received_app c tr1 tr2 :
  client_received c (tr1 ++ tr2) = client_received c tr1 ++ client_received c tr2.
Proof.
  induction tr1 as [|e tr1 IH]; simpl; [reflexivity |].
  destruct e as [c' m r|d ok]; [| exact IH].
  destruct r as [k|]; [| exact IH].
  destruct (Nat.eqb c c'); [| exact IH]. now rewrite IH, app_assoc.
Qed.

(** X1. Client to upstream: what the upstream session is given by a
    read loop is, byte for byte and in order, what [recv] handed out up
    to some point of the script, and all of it if the loop is still
    running when the script ends. *)
Lemma read_loop_forwards_prefix c script : forall t,
  exists consumed rest,
    script = consumed ++ rest /\
    upstream_received (trace (exec (read_loop c script) t)) =
      upstream_received (trace t) ++ chunks consumed /\
    (result (read_loop c script) t = Ret Blocked -> rest = []).
Proof.
  induction script as [|ev script IH]; intros t.
  - exists [], []. unfold exec, result. simpl. unfold bind, get.
    destruct (loop_condition t); simpl; rewrite app_nil_r; auto.
  - assert (Hstop : forall (o : outcome status) tr,
              o <> Ret Blocked ->
              upstream_received tr = upstream_received (trace t) ->
              exists consumed rest : list recv_event,
                ev :: script = consumed ++ rest /\
                upstream_received tr = upstream_received (trace t) ++ chunks consumed /\
                (o = Ret Blocked -> rest = [])).
    { intros o tr Ho Htr. exists [], (ev :: script). simpl. rewrite app_nil_r.
      repeat split; [exact Htr | intros H; contradiction]. }
    unfold exec, result. rewrite (read_loop_cons c ev script t).
    destruct (loop_condition t); [| now apply Hstop].
    rewrite read_iteration_full. unfold after_read.
    destruct (is_closed c t); [now apply Hstop |].
    destruct ev as [data ok| | | |data written]; simpl.
    + destruct data as [|b data]; [now apply Hstop |].
      destruct (ok && negb (upstream_closed t)) eqn:Hok; simpl.
      * match goal with |- context [read_loop c script ?t1] =>
          destruct (IH t1) as [cs [rs [E [Hu Hb]]]] end.
        unfold exec, result in Hu, Hb. simpl in Hu.
        exists (RecvData (b :: data) ok :: cs), rs. split; [now rewrite E |].
        split; [| exact Hb].
        rewrite Hu, upstream_received_app. simpl.
        rewrite app_nil_r, <- !app_assoc. reflexivity.
      * apply Hstop; [discriminate |].
        rewrite upstream_received_app. simpl. apply app_nil_r.
    + destruct (IH t) as [cs [rs [E [Hu Hb]]]].
      exists (RecvTimeout :: cs), rs. split; [now rewrite E |].
      split; [exact Hu | exact Hb].
    + now apply Hstop.
    + now apply Hstop.
    + destruct data as [|b data]; [now apply Hstop |].
      destruct (upstream_closed t); simpl.
      * apply Hstop; [discriminate |].
        rewrite upstream_received_app. simpl. apply app_nil_r.
      * destruct written.
        -- exists [RecvCancelled (b :: data) true], script.
           split; [reflexivity |]. split; [| discriminate].
           rewrite upstream_received_app. simpl. now rewrite !app_nil_r.
        -- apply Hstop; [discriminate |].
           rewrite upstream_received_app. simpl. apply app_nil_r.
Qed.

(** Upstream to clients: when every socket takes the whole message, a
    client that stays registered is given exactly the message. *)
Lemma client_received_others message wr s c l :
  ~ In c l -> client_received c (map (attempt s wr message) l) = [].
Proof.
  induction l as [|x l IH]; intros Hn; [reflexivity |].
  change (map (attempt s wr message) (x :: l))
    with (attempt s wr message x :: map (attempt s wr message) l).
  unfold attempt at 1.
  assert (Hl : ~ In c l) by (intros H; apply Hn; now right).
  destruct (if write_fails s wr x then WriteError else wr x);
    cbn [client_received]; [| now apply IH].
  destruct (Nat.eqb_spec c x) as [->|_]; [| now apply IH].
  exfalso. apply Hn. now left.
Qed.

Lemma fan_out_whole_writes message wr s c :
  NoDup (clients s) ->
  In c (clients s) ->
  (exists k, wr c = Sent k /\ List.length message <= k) ->
  is_closed c s = false ->
  client_received c (trace (exec (fan_out message wr) s)) =
    client_received c (trace s) ++ message.
Proof.
  intros Hnd Hin [k [Hw Hk]] Hcl.
  destruct (fan_out_facts message wr s) as [_ [Ht _]]. rewrite Ht.
  rewrite client_received_app. f_equal. clear Ht.
  induction (clients s) as [|c' l IH]; [contradiction |].
  inversion Hnd as [|? ? Hc' Hl]; subst.
  change (map (attempt s wr message) (c' :: l))
    with (attempt s wr message c' :: map (attempt s wr message) l).
  destruct Hin as [->|Hin].
  - unfold attempt at 1, write_fails. rewrite Hcl, Hw.
    cbn [orb client_received]. rewrite Nat.eqb_refl, firstn_all2 by exact Hk.
    rewrite (client_received_others message wr s c l Hc'). apply app_nil_r.
  - unfold attempt at 1.
    destruct (if write_fails s wr c' then WriteError else wr c');
      cbn [client_received]; [| now apply IH].
    destruct (Nat.eqb_spec c c') as [->|_]; [contradiction | now apply IH].
Qed.

Lemma one_client_reached :
  run one_client_run (boot "wss://device"%string 0 []) = Some one_client.
Proof. vm_compute. reflexivity. Qed.

(** C1, where the code departs from it.  One client is connected and
    the upstream sends the two bytes [ab]; the client's socket takes one
    byte, so [send] returns 1.  The fan-out does not look at that: the
    client is given [a] only, nothing is sent again, and the client stays
    registered with its socket open. *)
Theorem partial_write_drops_bytes :
  exists y',
    run one_client_run (boot "wss://device"%string 0 []) = Some one_client /\
    clients (st one_client) = [1] /\
    step (Forward (WsMessage [x61; x62] (fun _ => Sent 1))) one_client = Some y' /\
    trace (st y') = [ClientWrite 1 [x61; x62] (Sent 1)] /\
    client_received 1 (trace (st y')) = [x61] /\
    clients (st y') = [1] /\
    is_closed 1 (st y') = false.
Proof.
  eexists. split; [exact one_client_reached |].
  split; [reflexivity |]. split; [vm_compute; reflexivity |].
  repeat split.
Qed.

(** C2 as stated fails.  One client is connected and waits at line
    102; [websocket.recv()] raises [ConnectionClosed] and the forwarder
    ends.  [run_bridge] could return now.  But the client's task has the
    next turn, and the client sends nothing: [recv] times out and the
    loop goes round, and round again, with no [await] on the way, so no
    other task runs and [run_bridge] does not return.  However many
    timeouts pass, the running flag is set, the client is registered,
    its socket and the listener's are open, and only the client's
    [recv] can bring the next turn. *)
Lemma upstream_close_leaves_bridge_running :
  turns served_run (boot_loop "wss://device"%string 0 []) = Some served /\
  turn (Forward WsConnectionClosed) served = Some upstream_lost /\
  forwarder (sys upstream_lost) = false /\
  server (sys upstream_lost) = Done /\
  turn (Read 1 RecvTimeout) upstream_lost = Some client_polling /\
  (forall k, turns (repeat (Read 1 RecvTimeout) k) client_polling
             = Some client_polling) /\
  turn Return client_polling = None /\
  (forall l z, turn l client_polling = Some z -> exists ev, l = Read 1 ev) /\
  finished (sys client_polling) = false /\
  running (st (sys client_polling)) = true /\
  clients (st (sys client_polling)) = [1] /\
  is_closed 1 (st (sys client_polling)) = false /\
  server_socket (st (sys client_polling)) = Some 0 /\
  is_closed 0 (st (sys client_polling)) = false.
Proof.
  split; [vm_compute; reflexivity |].
  split; [vm_compute; reflexivity |].
  split; [reflexivity |]. split; [reflexivity |].
  split; [vm_compute; reflexivity |]. split.
  { apply turns_repeat_same. vm_compute. reflexivity. }
  split; [vm_compute; reflexivity |]. split.
  { intros l z H. now apply (handler_keeps_loop 1 client_polling l z). }
  repeat split.
Qed.


(** ** The theorems at work on concrete runs *)

Lemma clients_never_twice_witness :
  run sample_run (boot "wss://device"%string 0 []) = Some sample_end /\
  NoDup (clients (st sample_end)).
Proof.
  assert (H : run sample_run (boot "wss://device"%string 0 []) = Some sample_end)
    by (vm_compute; reflexivity).
  split; [exact H |].
  exact (proj1 (clients_never_twice "wss://device"%string 0 [] sample_run
                  sample_end H)).
Defined.


Lemma upstream_close_ends_forwarder_only_witness :
  turns served_run (boot_loop "wss://device"%string 0 []) = Some served /\
  turn (Forward WsConnectionClosed) served = Some upstream_lost /\
  server (sys served) = Done /\
  st (sys upstream_lost) = st (sys served) /\
  turn Return upstream_lost = Some bridge_stopped /\
  clients (st (sys bridge_stopped)) = [] /\
  is_closed 1 (st (sys bridge_stopped)) = true.
Proof.
  assert (H1 : turns served_run (boot_loop "wss://device"%string 0 [])
               = Some served) by (vm_compute; reflexivity).
  assert (H2 : turn (Forward WsConnectionClosed) served = Some upstream_lost)
    by (vm_compute; reflexivity).
  assert (R : turn Return upstream_lost = Some bridge_stopped)
    by (vm_compute; reflexivity).
  destruct (upstream_close_ends_forwarder_only "wss://device"%string 0 []
              served_run served upstream_lost H1 H2)
    as [D [E [_ [_ [_ [_ [w [Hw [_ [_ [Hc [Hall _]]]]]]]]]]]].
  assert (Ew : w = bridge_stopped) by congruence.
  subst w.
  split; [exact H1 |]. split; [exact H2 |]. split; [exact D |].
  split; [exact E |]. split; [exact R |]. split; [exact Hc |].
  apply Hall. now left.
Defined.

Lemma url_discovery_order_witness :
  discover (Some "wss://env/adb"%string) FileNotFound =
    (Ret (Some "wss://env/adb"%string), []) /\
  exists before after,
    nth 1 sample_file EmptyString = (before ++ String "="%char after)%string /\
    has_char "="%char before = false /\
    discover None (FileLines sample_file) =
      (Ret (Some (strip_quotes (strip after))), [OpenFile]).
Proof.
  assert (Hpre : Forall (fun l => is_key_line l = false)
                        ["# written by the launcher"%string]).
  { constructor; [vm_compute; reflexivity | constructor]. }
  assert (Hline : is_key_line (nth 1 sample_file EmptyString) = true)
    by (vm_compute; reflexivity).
  destruct (url_discovery_order (FileLines sample_file)
              ["# written by the launcher"%string]
              ["GENYMOTION_ADB_URL=wss://other/adb"%string]
              (nth 1 sample_file EmptyString) eq_refl Hpre Hline)
    as [Henv [before [after [E [Hb Hd]]]]].
  split; [apply Henv; reflexivity |].
  exists before, after. split; [exact E |]. split; [exact Hb |].
  apply Hd. reflexivity.
Defined.

Lemma missing_url_exit_1_witness :
  exit_code (main None (FileLines ["ADB_PORT=5555"%string]) (Returned true)) = Some 1 /\
  exit_code (main None FileNotFound (Returned true)) = Some 1.
Proof.
  split.
  - apply (missing_url_exit_1 (FileLines ["ADB_PORT=5555"%string]) (Returned true)).
    right. exists ["ADB_PORT=5555"%string]. split; [reflexivity |].
    constructor; [vm_compute; reflexivity | constructor].
  - apply (missing_url_exit_1 FileNotFound (Returned true)). now left.
Defined.

Lemma bad_scheme_exit_1_witness :
  exit_code (main (Some "ws://device/adb"%string) FileNotFound (Returned true)) = Some 1.
Proof.
  apply (bad_scheme_exit_1 (Some "ws://device/adb"%string) FileNotFound
           (Returned true) "ws://device/adb"%string); vm_compute; reflexivity.
Defined.

(** ** The turns are the loops of the source, cut at their iterations *)

Lemma forwarder_loop_cons ev script t :
  forwarder_loop (ev :: script) t =
  if loop_condition t then
    match forwarder_answer ev with
    | Ret true => forwarder_loop script (after_forward ev t)
    | Ret false => (Ret Exited, after_forward ev t)
    | Raise e => (Raise e, after_forward ev t)
    end
  else (Ret Exited, t).
Proof.
  simpl. unfold bind at 1, get. destruct (loop_condition t); [| reflexivity].
  unfold bind. rewrite forwarder_iteration_eq. now destruct ev.
Qed.

(** An [except Exception] clause that only answers leaves the state as
    the body left it, whether it catches or not. *)
Lemma exec_except_Exception {A} (m : M A) (a : A) t :
  exec (try_except m (except_Exception (fun _ => ret a))) t = exec m t.
Proof.
  unfold exec, try_except, except_Exception, ret, raise.
  destruct (m t) as [[x|e] t']; [reflexivity |].
  now destruct (is_Exception e).
Qed.

(** Whatever [websocket_forwarder] does on a script of upstream events,
    the forwarder task does in as many turns. *)
Lemma forwarder_turns script : forall t sv rd,
  exists ls y',
    run ls (mkSys t sv true rd false) = Some y' /\
    Forall is_forward ls /\
    st y' = exec (websocket_forwarder script) t /\
    server y' = sv /\ readers y' = rd.
Proof.
  assert (Hw : forall scr t, exec (websocket_forwarder scr) t = exec (forwarder_loop scr) t).
  { intros scr t. apply exec_except_Exception. }
  induction script as [|ev script IH]; intros t sv rd.
  - exists [], (mkSys t sv true rd false). rewrite Hw. unfold exec. simpl.
    unfold bind, get. destruct (loop_condition t); repeat split; constructor.
  - rewrite Hw. unfold exec. rewrite forwarder_loop_cons.
    destruct (loop_condition t) eqn:Hl.
    2:{ exists [], (mkSys t sv true rd false). repeat split; constructor. }
    assert (Hone : step (Forward ev) (mkSys t sv true rd false) =
                   Some (mkSys (after_forward ev t) sv (forwards_again ev) rd false)).
    { unfold step. simpl. rewrite Hl, forwarder_iteration_eq.
      now destruct ev. }
    assert (Hstop : exists ls y',
      run ls (mkSys t sv true rd false) = Some y' /\ Forall is_forward ls /\
      st y' = after_forward ev t /\ server y' = sv /\ readers y' = rd).
    { exists [Forward ev],
        (mkSys (after_forward ev t) sv (forwards_again ev) rd false).
      simpl. rewrite Hone. repeat split.
      constructor; [now exists ev | constructor]. }
    assert (Hgo : forwards_again ev = true ->
      exists ls y',
        run ls (mkSys t sv true rd false) = Some y' /\ Forall is_forward ls /\
        st y' = snd (forwarder_loop script (after_forward ev t)) /\
        server y' = sv /\ readers y' = rd).
    { intros Hb. destruct (IH (after_forward ev t) sv rd) as [ls [y' [Hr [Hf [Hs Hrest]]]]].
      exists (Forward ev :: ls), y'. simpl. rewrite Hone, Hb.
      split; [exact Hr |]. split; [constructor; [now exists ev | exact Hf] |].
      split; [| exact Hrest]. rewrite Hs, Hw. reflexivity. }
    destruct ev; simpl; solve [apply Hgo; reflexivity | exact Hstop].
Qed.

Lemma interrupts_not_Exception script e :
  interrupts script e -> is_Exception e = false.
Proof. intros [[-> _]|[-> _]]; reflexivity. Qed.

Lemma interrupts_cons ev script e :
  interrupts script e -> interrupts (ev :: script) e.
Proof.
  intros [[E H]|[E [d [w H]]]]; [left | right]; split; try exact E.
  - now right.
  - exists d, w. now right.
Qed.

Lemma after_read_raises c ev t e :
  fst (after_read c ev t) = Raise e -> interrupts [ev] e.
Proof.
  unfold after_read. destruct (is_closed c t); [discriminate |].
  destruct ev as [data ok| | | |data written]; simpl; try discriminate.
  - destruct data; discriminate.
  - intros H. inversion H. left. split; [reflexivity | now left].
  - destruct data; [discriminate |].
    destruct (upstream_closed t); [discriminate |].
    intros H. inversion H. right. split; [reflexivity |].
    eexists _, _. now left.
Qed.

(** What leaves the read loop as an exception is a [KeyboardInterrupt]
    that reached [recv] or the cancellation of the task at its [await]:
    nothing an [except Exception] clause would catch. *)
Lemma read_loop_interrupts c script : forall t e,
  result (read_loop c script) t = Raise e -> interrupts script e.
Proof.
  unfold result. induction script as [|ev script IH]; intros t e.
  - simpl. unfold bind, get. destruct (loop_condition t); discriminate.
  - rewrite read_loop_cons. destruct (loop_condition t); [| discriminate].
    rewrite read_iteration_full.
    pose proof (after_read_raises c ev t) as Hr.
    destruct (after_read c ev t) as [[[|]|e'] t1]; simpl in *.
    + intros H. apply interrupts_cons. now apply (IH t1).
    + discriminate.
    + intros H. inversion H; subst.
      destruct (Hr e eq_refl) as [[E [Hin|[]]]|[E [d [w [Hin|[]]]]]]; subst ev.
      * left. split; [exact E | now left].
      * right. split; [exact E |]. exists d, w. now left.
Qed.

Lemma read_loop_raises c script t e :
  result (read_loop c script) t = Raise e -> is_Exception e = false.
Proof.
  intros H. eapply interrupts_not_Exception, read_loop_interrupts, H.
Qed.

Lemma read_turns c script : forall t sv fw rd,
  list_in c rd = true ->
  exists ls y',
    run ls (mkSys t sv fw rd false) = Some y' /\
    Forall (is_read c) ls /\
    st y' = after_read_loop c script t /\
    server y' = sv /\ forwarder y' = fw.
Proof.
  unfold after_read_loop.
  induction script as [|ev script IH]; intros t sv fw rd Hin.
  - simpl. unfold bind, get. destruct (loop_condition t) eqn:Hl; simpl.
    + exists [], (mkSys t sv fw rd false). repeat split; constructor.
    + exists [Read c RecvTimeout],
        (mkSys (after_cleanup c t) sv fw (remove Nat.eq_dec c rd) false).
      simpl. unfold step. simpl. rewrite Hin, Hl. unfold exec.
      rewrite handle_client_cleanup_eq. repeat split.
      constructor; [now exists RecvTimeout | constructor].
  - rewrite read_loop_cons. destruct (loop_condition t) eqn:Hl.
    2:{ exists [Read c ev],
          (mkSys (after_cleanup c t) sv fw (remove Nat.eq_dec c rd) false).
        simpl. unfold step. simpl. rewrite Hin, Hl. unfold exec.
        rewrite handle_client_cleanup_eq. repeat split.
        constructor; [now exists ev | constructor]. }
    rewrite read_iteration_full.
    assert (Hlast : forall r t1,
      after_read c ev t = (r, t1) -> r <> Ret true ->
      exists ls y',
        run ls (mkSys t sv fw rd false) = Some y' /\
        Forall (is_read c) ls /\
        st y' = after_cleanup c t1 /\ server y' = sv /\ forwarder y' = fw).
    { intros r t1 Hb Hr.
      exists [Read c ev], (mkSys (after_cleanup c t1) sv fw (remove Nat.eq_dec c rd) false).
      simpl. unfold step. simpl. rewrite Hin, Hl, read_iteration_full, Hb.
      unfold exec. rewrite handle_client_cleanup_eq.
      split; [destruct r as [[|]|e]; [contradiction | reflexivity ..] |].
      repeat split. constructor; [now exists ev | constructor]. }
    destruct (after_read c ev t) as [[[|]|e] t1] eqn:Hb.
    + destruct (IH t1 sv fw rd Hin) as [ls [y' [Hr [Hf [Hs Hrest]]]]].
      exists (Read c ev :: ls), y'. simpl. unfold step at 1. simpl.
      rewrite Hin, Hl, read_iteration_full, Hb.
      split; [exact Hr |]. split; [constructor; [now exists ev | exact Hf] |].
      split; [exact Hs | exact Hrest].
    + apply (Hlast _ _ eq_refl). discriminate.
    + apply (Hlast _ _ eq_refl). discriminate.
Qed.

Lemma handle_client_eq c script t :
  exec (handle_client c script) t =
  if is_closed c t then after_cleanup c (set_clients (clients t ++ [c]) t)
  else after_read_loop c script (set_clients (clients t ++ [c]) t).
Proof.
  unfold exec, handle_client, after_read_loop, try_finally, try_except.
  unfold bind at 1. rewrite handle_client_enter_eq.
  destruct (is_closed c t); simpl.
  - rewrite handle_client_cleanup_eq. reflexivity.
  - destruct (read_loop c script (set_clients (clients t ++ [c]) t))
      as [[[|]|e] t']; simpl.
    + rewrite handle_client_cleanup_eq. reflexivity.
    + reflexivity.
    + unfold except_Exception.
      destruct (is_Exception e); simpl; rewrite handle_client_cleanup_eq; reflexivity.
Qed.

(** Whatever [handle_client] does for a socket on a script of what the
    client sends, the task created for it does in its first turn and as
    many turns of its read loop. *)
Lemma handle_client_turns c script t sv fw rd rest :
  take_task c (spawned t) = Some rest ->
  exists ls y',
    run ls (mkSys t sv fw rd false) = Some y' /\
    Forall (fun l => l = Start c \/ is_read c l) ls /\
    st y' = exec (handle_client c script) (set_spawned rest t) /\
    server y' = sv /\ forwarder y' = fw.
Proof.
  intros Htake. rewrite handle_client_eq.
  change (is_closed c (set_spawned rest t)) with (is_closed c t).
  assert (Hstart : step (Start c) (mkSys t sv fw rd false) =
    Some (if is_closed c t
          then mkSys (after_cleanup c (set_clients (clients t ++ [c]) (set_spawned rest t)))
                     sv fw rd false
          else mkSys (set_clients (clients t ++ [c]) (set_spawned rest t))
                     sv fw (rd ++ [c]) false)).
  { unfold step. simpl. rewrite Htake, handle_client_enter_eq.
    change (is_closed c (set_spawned rest t)) with (is_closed c t).
    destruct (is_closed c t); [| reflexivity].
    unfold exec. now rewrite handle_client_cleanup_eq. }
  destruct (is_closed c t).
  - eexists [Start c], _. simpl. rewrite Hstart. repeat split.
    constructor; [now left | constructor].
  - assert (Hin : list_in c (rd ++ [c]) = true).
    { apply list_in_In. apply in_or_app. right. now left. }
    destruct (read_turns c script
                (set_clients (clients t ++ [c]) (set_spawned rest t))
                sv fw (rd ++ [c]) Hin) as [ls [y' [Hr [Hf [Hs Hrest]]]]].
    exists (Start c :: ls), y'. simpl. rewrite Hstart.
    split; [exact Hr |]. split; [| split; [exact Hs | exact Hrest]].
    constructor; [now left |].
    eapply Forall_impl; [| exact Hf]. intros l Hl. now right.
Qed.

Lemma run_cons l ls y :
  run (l :: ls) y =
  match step l y with
  | Some y' => run ls y'
  | None => None
  end.
Proof. reflexivity. Qed.

Lemma accept_loop_cons ev script t :
  accept_loop (ev :: script) t =
  if running t then
    match accept_iteration ev t with
    | (Ret true, t1) => accept_loop script t1
    | (Ret false, t1) => (Ret Exited, t1)
    | (Raise e, t1) => (Raise e, t1)
    end
  else (Ret Exited, t).
Proof.
  simpl. unfold bind at 1, get. destruct (running t); [| reflexivity].
  unfold bind. destruct (accept_iteration ev t) as [[[|]|e] t1]; reflexivity.
Qed.

Lemma accept_turns script : forall t fw rd,
  exists ls y',
    run ls (mkSys t Accepting fw rd false) = Some y' /\
    Forall is_accept ls /\
    st y' = exec (accept_loop script) t /\
    forwarder y' = fw /\ readers y' = rd.
Proof.
  unfold exec. induction script as [|ev script IH]; intros t fw rd.
  - exists [], (mkSys t Accepting fw rd false). simpl. unfold bind, get.
    destruct (running t); repeat split; constructor.
  - rewrite accept_loop_cons. destruct (running t) eqn:Hrun.
    2:{ exists [], (mkSys t Accepting fw rd false). repeat split; constructor. }
    destruct (accept_iteration_eq ev t) as [r Hb]. rewrite Hb.
    assert (Hone : step (Accept ev) (mkSys t Accepting fw rd false) =
                   Some (mkSys (after_accept ev t)
                               match r with Ret true => Accepting | _ => Done end
                               fw rd false)).
    { unfold step. simpl. rewrite Hrun, Hb. now destruct r as [[|]|e]. }
    destruct r as [[|]|e].
    + destruct (IH (after_accept ev t) fw rd) as [ls [y' [Hr [Hf [Hs Hrest]]]]].
      exists (Accept ev :: ls), y'. simpl. rewrite Hone.
      split; [exact Hr |]. split; [constructor; [now exists ev | exact Hf] |].
      split; [exact Hs | exact Hrest].
    + eexists [Accept ev], _. simpl. rewrite Hone. repeat split.
      constructor; [now exists ev | constructor].
    + eexists [Accept ev], _. simpl. rewrite Hone. repeat split.
      constructor; [now exists ev | constructor].
Qed.

(** Whatever [start_tcp_server] does on a script of what [accept]
    produces, the listener task does in one turn for the set-up and as
    many turns of its accept loop. *)
Lemma start_tcp_server_turns bind_ok script t fw rd :
  exists ls y',
    run ls (mkSys t Waiting fw rd false) = Some y' /\
    Forall (fun l => l = Listen bind_ok \/ is_accept l) ls /\
    st y' = exec (start_tcp_server bind_ok script) t /\
    forwarder y' = fw /\ readers y' = rd.
Proof.
  unfold start_tcp_server. rewrite exec_except_Exception.
  unfold exec, bind. rewrite listen_eq.
  set (t1 := set_fresh (S (fresh t)) (set_server_socket (Some (fresh t)) t)).
  assert (Hone : step (Listen bind_ok) (mkSys t Waiting fw rd false) =
                 Some (mkSys t1 (if bind_ok then Accepting else Done) fw rd false)).
  { unfold step. simpl. rewrite listen_eq. now destruct bind_ok. }
  destruct bind_ok.
  - destruct (accept_turns script t1 fw rd) as [ls [y' [Hr [Hf [Hs Hrest]]]]].
    exists (Listen true :: ls), y'. rewrite run_cons, Hone.
    split; [exact Hr |]. split.
    { constructor; [now left |].
      eapply Forall_impl; [| exact Hf]. intros l Hl. now right. }
    split; [| exact Hrest]. rewrite Hs. reflexivity.
  - exists [Listen false], (mkSys t1 Done fw rd false).
    rewrite run_cons, Hone. repeat split.
    constructor; [now left | constructor].
Qed.

(** ** The functions of the source as runs of the program

    On the event loop [start_tcp_server] is one stretch in which the
    listener holds the loop from its first line to the end of its accept
    loop, and [handle_client] is a stretch in which the handler holds
    the loop except where it waits at line 102. *)

Lemma listener_keeps_loop z l z' :
  holding z = Listener -> turn l z = Some z' -> exists ev, l = Accept ev.
Proof.
  intros Hh Ht. destruct (turn_step l z z' Ht) as [Hm _].
  unfold may_take in Hm. rewrite Hh in Hm.
  destruct l as [|ev| | | |]; try discriminate. now exists ev.
Qed.

Lemma listener_run_turns ls : forall z y',
  Forall (fun l => (exists b, l = Listen b) \/ is_accept l) ls ->
  run ls (sys z) = Some y' ->
  (server (sys z) = Accepting <-> holding z = Listener) ->
  (server (sys z) = Waiting -> holding z = Free) ->
  exists z', turns ls z = Some z' /\ sys z' = y' /\
             (server y' = Accepting <-> holding z' = Listener).
Proof.
  induction ls as [|l ls IH]; intros z y' Hall Hrun Hacc Hwait.
  - simpl in Hrun. inversion Hrun; subst. now exists z.
  - rewrite run_cons in Hrun.
    destruct (step l (sys z)) as [y1|] eqn:Hs; [| discriminate].
    inversion Hall as [|? ? Hl Hrest]; subst.
    assert (Hm : may_take l z = true).
    { unfold may_take. unfold step in Hs.
      destruct (finished (sys z)); [discriminate |].
      destruct Hl as [[b ->]|[ev ->]].
      - destruct (server (sys z)) eqn:Hsv; try discriminate.
        now rewrite (Hwait eq_refl).
      - destruct (server (sys z)) eqn:Hsv; try discriminate.
        destruct Hacc as [Hacc _]. now rewrite (Hacc eq_refl). }
    assert (Ht : turn l z = Some (mkLoop y1 (holds_after l y1))).
    { unfold turn. now rewrite Hm, Hs. }
    assert (Hh : holds_after l y1 =
                 match server y1 with Accepting => Listener | _ => Free end).
    { destruct Hl as [[b ->]|[ev ->]]; reflexivity. }
    destruct (IH (mkLoop y1 (holds_after l y1)) y' Hrest Hrun)
      as [z' [Hz [Hy Hfin]]].
    + simpl. rewrite Hh. destruct (server y1); split; congruence.
    + simpl. rewrite Hh. now intros ->.
    + exists z'. rewrite turns_cons, Ht. auto.
Qed.

(** Whatever [start_tcp_server] does on a script of what [accept]
    produces is a run of the program in which the listener has every
    turn; it gives the loop back when its accept loop is over, and not
    before. *)
Lemma start_tcp_server_holds_loop bind_ok script t fw rd :
  exists ls z',
    turns ls (mkLoop (mkSys t Waiting fw rd false) Free) = Some z' /\
    Forall (fun l => l = Listen bind_ok \/ is_accept l) ls /\
    st (sys z') = exec (start_tcp_server bind_ok script) t /\
    (server (sys z') = Accepting <-> holding z' = Listener).
Proof.
  destruct (start_tcp_server_turns bind_ok script t fw rd)
    as [ls [y' [Hr [Hf [Hs _]]]]].
  destruct (listener_run_turns ls (mkLoop (mkSys t Waiting fw rd false) Free) y')
    as [z' [Hz [Hy Hfin]]].
  - eapply Forall_impl; [| exact Hf].
    intros l [->|Hl]; [left; now exists bind_ok | now right].
  - exact Hr.
  - simpl. split; discriminate.
  - reflexivity.
  - exists ls, z'. subst y'. auto.
Qed.

Lemma reader_run_turns c ls : forall z y',
  Forall (is_read c) ls ->
  run ls (sys z) = Some y' ->
  holding z = Free \/ holding z = Handler c ->
  exists z', turns ls z = Some z' /\ sys z' = y' /\
             (holding z' = Free \/ holding z' = Handler c).
Proof.
  induction ls as [|l ls IH]; intros z y' Hall Hrun Hh.
  - simpl in Hrun. inversion Hrun; subst. now exists z.
  - rewrite run_cons in Hrun.
    destruct (step l (sys z)) as [y1|] eqn:Hs; [| discriminate].
    inversion Hall as [|? ? [ev ->] Hrest]; subst.
    assert (Hm : may_take (Read c ev) z = true).
    { unfold may_take. destruct Hh as [-> | ->]; [reflexivity | apply Nat.eqb_refl]. }
    assert (Ht : turn (Read c ev) z = Some (mkLoop y1 (holds_after (Read c ev) y1))).
    { unfold turn. now rewrite Hm, Hs. }
    destruct (IH (mkLoop y1 (holds_after (Read c ev) y1)) y' Hrest Hrun)
      as [z' [Hz [Hy Hfin]]].
    + simpl. destruct ev; auto.
      destruct (list_in c (readers y1)); auto.
    + exists z'. rewrite turns_cons, Ht. auto.
Qed.

(** Whatever [handle_client] does for a socket on a script of what the
    client sends is a run of the program that begins when the loop is
    free, and in which only this task has turns. *)
Lemma handle_client_holds_loop c script t sv fw rd rest :
  take_task c (spawned t) = Some rest ->
  exists ls z',
    turns ls (mkLoop (mkSys t sv fw rd false) Free) = Some z' /\
    Forall (fun l => l = Start c \/ is_read c l) ls /\
    st (sys z') = exec (handle_client c script) (set_spawned rest t) /\
    (holding z' = Free \/ holding z' = Handler c).
Proof.
  intros Htake. rewrite handle_client_eq.
  change (is_closed c (set_spawned rest t)) with (is_closed c t).
  set (z0 := mkLoop (mkSys t sv fw rd false) Free).
  assert (Hstart : step (Start c) (sys z0) =
    Some (if is_closed c t
          then mkSys (after_cleanup c (set_clients (clients t ++ [c]) (set_spawned rest t)))
                     sv fw rd false
          else mkSys (set_clients (clients t ++ [c]) (set_spawned rest t))
                     sv fw (rd ++ [c]) false)).
  { unfold step. simpl. rewrite Htake, handle_client_enter_eq.
    change (is_closed c (set_spawned rest t)) with (is_closed c t).
    destruct (is_closed c t); [| reflexivity].
    unfold exec. now rewrite handle_client_cleanup_eq. }
  assert (Ht : exists h, turn (Start c) z0 =
    Some (mkLoop (if is_closed c t
          then mkSys (after_cleanup c (set_clients (clients t ++ [c]) (set_spawned rest t)))
                     sv fw rd false
          else mkSys (set_clients (clients t ++ [c]) (set_spawned rest t))
                     sv fw (rd ++ [c]) false) h) /\
    (h = Free \/ h = Handler c)).
  { unfold turn. rewrite Hstart. simpl. eexists. split; [reflexivity |].
    simpl. destruct (list_in c _); auto. }
  destruct Ht as [h [Ht Hh]].
  destruct (is_closed c t).
  - eexists [Start c], _. rewrite turns_cons, Ht. simpl.
    split; [reflexivity |]. split; [| split; [reflexivity | exact Hh]].
    constructor; [now left | constructor].
  - assert (Hin : list_in c (rd ++ [c]) = true).
    { apply list_in_In. apply in_or_app. right. now left. }
    destruct (read_turns c script
                (set_clients (clients t ++ [c]) (set_spawned rest t))
                sv fw (rd ++ [c]) Hin) as [ls [y' [Hr [Hf [Hs _]]]]].
    destruct (reader_run_turns c ls
                (mkLoop (mkSys (set_clients (clients t ++ [c]) (set_spawned rest t))
                               sv fw (rd ++ [c]) false) h) y' Hf Hr Hh)
      as [z' [Hz [Hy Hfin]]].
    exists (Start c :: ls), z'. rewrite turns_cons, Ht. subst y'.
    split; [exact Hz |]. split; [| split; [exact Hs | exact Hfin]].
    constructor; [now left |].
    eapply Forall_impl; [| exact Hf]. intros l Hl. now right.
Qed.

(** * Further properties of the code *)

(** ** [handle_client] as a whole *)

Lemma set_trace_set_trace v w t : set_trace v (set_trace w t) = set_trace v t.
Proof. reflexivity. Qed.

(** The read loop writes to the trace and to nothing else. *)
Lemma read_loop_frame c script : forall t,
  exists tr, snd (read_loop c script t) = set_trace (trace t ++ tr) t.
Proof.
  assert (Hsame : forall t, exists tr, t = set_trace (trace t ++ tr) t).
  { intros t. exists []. now rewrite app_nil_r, set_trace_same. }
  induction script as [|ev script IH]; intros t.
  - simpl. unfold bind, get. destruct (loop_condition t); apply Hsame.
  - rewrite read_loop_cons. destruct (loop_condition t); [| apply Hsame].
    rewrite read_iteration_full.
    destruct (after_read_frame c ev t) as [tr1 H1].
    destruct (after_read c ev t) as [[[|]|e] t1]; simpl in H1; subst t1; simpl.
    + destruct (IH (set_trace (trace t ++ tr1) t)) as [tr Htr].
      rewrite Htr. simpl. exists (tr1 ++ tr).
      now rewrite set_trace_set_trace, app_assoc.
    + now exists tr1.
    + now exists tr1.
Qed.

Lemma handle_client_result c script t :
  result (handle_client c script) t =
  if is_closed c t then Ret Exited
  else result (read_loop c script) (set_clients (clients t ++ [c]) t).
Proof.
  unfold result, handle_client, try_finally, try_except.
  unfold bind at 1. rewrite handle_client_enter_eq.
  destruct (is_closed c t); simpl.
  - now rewrite handle_client_cleanup_eq.
  - pose proof (read_loop_raises c script (set_clients (clients t ++ [c]) t)) as Hr.
    unfold result in Hr.
    destruct (read_loop c script (set_clients (clients t ++ [c]) t))
      as [[[|]|e] t']; simpl in *.
    + now rewrite handle_client_cleanup_eq.
    + reflexivity.
    + unfold except_Exception. rewrite (Hr e eq_refl). simpl.
      now rewrite handle_client_cleanup_eq.
Qed.

Lemma after_cleanup_registered c t l tr :
  ~ In c l ->
  let t1 := set_trace tr (set_clients (l ++ [c]) t) in
  is_closed c (after_cleanup c t1) = true /\
  trace (after_cleanup c t1) = tr /\
  clients (after_cleanup c t1) = (if cleanup_skipped c t then l ++ [c] else l).
Proof.
  intros Hn t1. destruct (after_cleanup_facts c t1) as [_ [_ [_ [_ [_ Hcl]]]]].
  split; [exact Hcl |].
  unfold after_cleanup, cleanup_skipped, close_state.
  change (is_closed c t1) with (is_closed c t).
  change (faulty t1) with (faulty t). change (clients t1) with (l ++ [c]).
  rewrite (list_remove_app c l [] Hn), app_nil_r.
  destruct (is_closed c t); simpl.
  - now split.
  - destruct (in_dec Nat.eq_dec c (faulty t)); simpl; now split.
Qed.

(** What [handle_client] has done when it is over, and while it waits. *)
Lemma handle_client_outcome c script t :
  ~ In c (clients t) ->
  exists tr,
    trace (exec (handle_client c script) t) = trace t ++ tr /\
    ((result (handle_client c script) t <> Ret Blocked /\
      is_closed c (exec (handle_client c script) t) = true /\
      clients (exec (handle_client c script) t) =
        (if cleanup_skipped c t then clients t ++ [c] else clients t)) \/
     (result (handle_client c script) t = Ret Blocked /\
      is_closed c t = false /\
      exec (handle_client c script) t =
        set_trace (trace t ++ tr) (set_clients (clients t ++ [c]) t))).
Proof.
  intros Hn. rewrite handle_client_result, handle_client_eq.
  destruct (is_closed c t) eqn:Hc.
  - exists []. rewrite app_nil_r.
    destruct (after_cleanup_registered c t (clients t) (trace t) Hn) as [H1 [H2 H3]].
    assert (E : set_trace (trace t) (set_clients (clients t ++ [c]) t) =
                set_clients (clients t ++ [c]) t) by now destruct t.
    rewrite E in H1, H2, H3. split; [exact H2 |]. left.
    split; [discriminate | auto].
  - unfold after_read_loop, result.
    destruct (read_loop_frame c script (set_clients (clients t ++ [c]) t)) as [tr Htr].
    destruct (read_loop c script (set_clients (clients t ++ [c]) t)) as [o t'].
    simpl in Htr. subst t'. exists tr.
    change (trace (set_clients (clients t ++ [c]) t)) with (trace t).
    destruct (after_cleanup_registered c t (clients t) (trace t ++ tr) Hn)
      as [H1 [H2 H3]].
    destruct o as [[|]|e]; simpl.
    + split; [exact H2 |]. left. split; [discriminate | auto].
    + split; [reflexivity |]. right. auto.
    + split; [exact H2 |]. left. split; [discriminate | auto].
Qed.

(** X3. [handle_client] on a socket that is not yet registered lets no
    [Exception] out: what leaves it is a [KeyboardInterrupt] that
    reached [recv] or the [CancelledError] of a task cancelled at the
    [await] of line 102, which the two [except Exception] clauses do not
    catch.  Whether it returns or raises, the [finally] block has run:
    the socket is closed and [self.clients] is what it was before the
    call, except when [close()] raised in that block, the removal below
    it being skipped then and the closed socket still registered.  While
    it waits in its loop the socket is open and registered. *)
Theorem handle_client_leaves_registry (c : sock) (script : list recv_event)
    (t : State) :
  ~ In c (clients t) ->
  let t' := exec (handle_client c script) t in
  match result (handle_client c script) t with
  | Ret Exited =>
      is_closed c t' = true /\
      clients t' = (if cleanup_skipped c t then clients t ++ [c] else clients t)
  | Ret Blocked =>
      is_closed c t' = false /\ clients t' = clients t ++ [c]
  | Raise e =>
      is_Exception e = false /\
      interrupts script e /\
      is_closed c t' = true /\
      clients t' = (if cleanup_skipped c t then clients t ++ [c] else clients t)
  end.
Proof.
  intros Hn t'. subst t'.
  assert (Hi : forall e, result (handle_client c script) t = Raise e ->
                         interrupts script e).
  { intros e. rewrite handle_client_result.
    destruct (is_closed c t); [discriminate | apply read_loop_interrupts]. }
  destruct (handle_client_outcome c script t Hn)
    as [tr [_ [[Hr [Hc Hl]]|[Hr [Hc He]]]]].
  - destruct (result (handle_client c script) t) as [[|]|e].
    + now split.
    + now contradiction Hr.
    + pose proof (Hi e eq_refl) as H.
      split; [now apply (interrupts_not_Exception script) |]. now split.
  - rewrite Hr, He. split; [exact Hc | reflexivity].
Qed.

Lemma handle_client_leaves_registry_witness :
  result (handle_client 5 [RecvData [x41] true; RecvInterrupt; RecvData [x42] true])
         running_state = Raise KeyboardInterrupt /\
  is_closed 5 (exec (handle_client 5 [RecvData [x41] true; RecvInterrupt;
                                       RecvData [x42] true])
                    running_state) = true /\
  clients (exec (handle_client 5 [RecvData [x41] true; RecvInterrupt;
                                   RecvData [x42] true])
                running_state) = [] /\
  clients (exec (handle_client 7 [RecvError]) running_state_bad_close) = [7].
Proof.
  assert (H5 : ~ In 5 (clients running_state)) by (intros []).
  assert (H7 : ~ In 7 (clients running_state_bad_close)) by (intros []).
  pose proof (handle_client_leaves_registry 5
                [RecvData [x41] true; RecvInterrupt; RecvData [x42] true]
                running_state H5) as A.
  pose proof (handle_client_leaves_registry 7 [RecvError]
                running_state_bad_close H7) as B.
  assert (R5 : result (handle_client 5 [RecvData [x41] true; RecvInterrupt;
                                         RecvData [x42] true])
                      running_state = Raise KeyboardInterrupt)
    by (vm_compute; reflexivity).
  assert (R7 : result (handle_client 7 [RecvError]) running_state_bad_close
               = Ret Exited) by (vm_compute; reflexivity).
  cbv zeta in A, B. rewrite R5 in A. rewrite R7 in B.
  split; [exact R5 |]. split; [exact (proj1 (proj2 (proj2 A))) |].
  split; [exact (proj2 (proj2 (proj2 A))) | exact (proj2 B)].
Defined.

(** X4. A socket that [close()] failed on in the [finally] block stays
    in [self.clients] when [handle_client] is over, and the next fan-out
    takes it out, whatever the message and whatever the sockets do. *)
Theorem stale_client_pruned_by_next_fan_out (c : sock)
    (script : list recv_event) (t : State) :
  ~ In c (clients t) ->
  cleanup_skipped c t = true ->
  result (handle_client c script) t = Ret Exited ->
  let t1 := exec (handle_client c script) t in
  In c (clients t1) /\
  is_closed c t1 = true /\
  (forall message wr, ~ In c (clients (exec (fan_out message wr) t1))).
Proof.
  intros Hn Hsk Hr t1. subst t1.
  destruct (handle_client_outcome c script t Hn)
    as [tr [_ [[_ [Hc Hl]]|[Hb _]]]]; [| congruence].
  rewrite Hsk in Hl. split; [rewrite Hl; apply in_or_app; right; now left |].
  split; [exact Hc |].
  intros message wr Hin.
  destruct (fan_out_facts message wr (exec (handle_client c script) t)) as [Hf _].
  rewrite Hf in Hin. apply filter_In in Hin. destruct Hin as [_ Hk].
  unfold write_fails in Hk. rewrite Hc in Hk. discriminate.
Qed.

Lemma stale_client_pruned_by_next_fan_out_witness :
  In 7 (clients (exec (handle_client 7 [RecvError]) running_state_bad_close)) /\
  ~ In 7 (clients (exec (fan_out [x61] (fun _ => Sent 1))
                        (exec (handle_client 7 [RecvError]) running_state_bad_close))).
Proof.
  assert (H7 : ~ In 7 (clients running_state_bad_close)) by (intros []).
  destruct (stale_client_pruned_by_next_fan_out 7 [RecvError]
              running_state_bad_close H7 eq_refl eq_refl) as [A [_ B]].
  split; [exact A | apply B].
Defined.

(** X5. When [websocket.send] fails, because the upstream is closed or
    for any other reason, the chunk just read is lost, the read loop is
    left at once (what the client sends next is never read), and the
    client's socket is closed. *)
Theorem failed_upstream_send_drops_client (c : sock) (b : byte) (data : bytes)
    (ok : bool) (rest : list recv_event) (t : State) :
  loop_condition t = true ->
  is_closed c t = false ->
  ok && negb (upstream_closed t) = false ->
  let t' := exec (handle_client c (RecvData (b :: data) ok :: rest)) t in
  result (handle_client c (RecvData (b :: data) ok :: rest)) t = Ret Exited /\
  is_closed c t' = true /\
  upstream_received (trace t') = upstream_received (trace t) /\
  t' = exec (handle_client c [RecvData (b :: data) ok]) t.
Proof.
  intros Hl Hc Hok t'. subst t'.
  assert (Hloop : forall scr,
    read_loop c (RecvData (b :: data) ok :: scr) (set_clients (clients t ++ [c]) t) =
    (Ret Exited,
     set_trace (trace t ++ [UpstreamSend (b :: data) false])
               (set_clients (clients t ++ [c]) t))).
  { intros scr. rewrite read_loop_cons.
    change (loop_condition (set_clients (clients t ++ [c]) t)) with (loop_condition t).
    rewrite Hl, read_iteration_full. unfold after_read.
    change (is_closed c (set_clients (clients t ++ [c]) t)) with (is_closed c t).
    change (upstream_closed (set_clients (clients t ++ [c]) t)) with (upstream_closed t).
    rewrite Hc, Hok. reflexivity. }
  rewrite handle_client_result, !handle_client_eq, Hc.
  unfold result, after_read_loop. rewrite !Hloop. simpl.
  split; [reflexivity |]. split.
  { now destruct (after_cleanup_facts c
      (set_trace (trace t ++ [UpstreamSend (b :: data) false])
                 (set_clients (clients t ++ [c]) t))) as [_ [_ [_ [_ [_ H]]]]]. }
  split; [| reflexivity].
  assert (Htr : forall u, trace (after_cleanup c u) = trace u).
  { intros u. unfold after_cleanup, close_state.
    destruct (is_closed c u); simpl;
      destruct (list_remove c (clients u)); simpl;
      try destruct (in_dec Nat.eq_dec c (faulty u)); reflexivity. }
  rewrite Htr. simpl. rewrite upstream_received_app. simpl. apply app_nil_r.
Qed.

Lemma failed_upstream_send_drops_client_witness :
  is_closed 5 (exec (handle_client 5 [RecvData [x41] false; RecvData [x42] true])
                    running_state) = true /\
  upstream_received
    (trace (exec (handle_client 5 [RecvData [x41] false; RecvData [x42] true])
                 running_state)) = [].
Proof.
  destruct (failed_upstream_send_drops_client 5 x41 [] false
              [RecvData [x42] true] running_state eq_refl eq_refl eq_refl)
    as [_ [A [B _]]].
  split; [exact A | exact B].
Defined.

(** X6. A client that the fan-out has pruned: on the next turn of its
    read loop, whatever it sent, nothing is read or forwarded, the loop
    ends, and the state of the bridge, [self.clients] with it, is not
    touched. *)
Theorem pruned_reader_leaves (c : sock) (ev : recv_event) (y y' : Sys) :
  step (Read c ev) y = Some y' ->
  is_closed c (st y) = true ->
  ~ In c (clients (st y)) ->
  st y' = st y /\ ~ In c (readers y') /\
  server y' = server y /\ forwarder y' = forwarder y.
Proof.
  intros Hstep Hc Hn. unfold step in Hstep.
  destruct (finished y); [discriminate |].
  destruct (list_in c (readers y)); [| discriminate].
  assert (Hclean : exec (handle_client_cleanup c) (st y) = st y).
  { unfold exec. rewrite handle_client_cleanup_eq. simpl.
    unfold after_cleanup, close_state. rewrite Hc. simpl.
    apply list_remove_None in Hn. now rewrite Hn. }
  assert (Hy : y' = mkSys (st y) (server y) (forwarder y)
                          (remove Nat.eq_dec c (readers y)) false).
  { destruct (loop_condition (st y)).
    - rewrite read_iteration_full in Hstep. unfold after_read in Hstep.
      rewrite Hc in Hstep. simpl in Hstep. rewrite Hclean in Hstep.
      now inversion Hstep.
    - rewrite Hclean in Hstep. now inversion Hstep. }
  subst y'. simpl. repeat split. apply remove_In.
Qed.

Lemma pruned_reader_leaves_witness :
  run pruned_run (boot "wss://device"%string 0 []) = Some pruned_one /\
  step (Read 1 (RecvData [x41] true)) pruned_one = Some pruned_one_left /\
  st pruned_one_left = st pruned_one /\
  ~ In 1 (readers pruned_one_left).
Proof.
  assert (H : step (Read 1 (RecvData [x41] true)) pruned_one = Some pruned_one_left)
    by (vm_compute; reflexivity).
  assert (Hn : ~ In 1 (clients (st pruned_one))).
  { intros [E|[]]. discriminate. }
  destruct (pruned_reader_leaves 1 (RecvData [x41] true) pruned_one
              pruned_one_left H eq_refl Hn) as [A [B _]].
  split; [vm_compute; reflexivity |]. split; [exact H |]. split; assumption.
Defined.

(** ** The listener *)

Lemma accept_iteration_open ev t l :
  server_socket t = Some l -> is_closed l t = false -> event_loop t = true ->
  accept_iteration ev t = (accept_answer ev, after_accept ev t).
Proof.
  intros Hs Hc He.
  unfold accept_iteration, after_accept, sock_accept, create_task, try_except,
    except_Exception, bind, get, modify, ret, raise.
  rewrite Hs, Hc. destruct ev; simpl; try reflexivity. now rewrite He.
Qed.

Lemma accept_loop_spawns script : forall t l,
  running t = true -> event_loop t = true ->
  server_socket t = Some l -> is_closed l t = false ->
  fst (accept_loop script t) = accept_end script /\
  snd (accept_loop script t) =
    set_spawned (spawned t ++ map HandleClient (seq (fresh t) (admitted script)))
                (set_fresh (fresh t + admitted script) t).
Proof.
  assert (Hsame : forall t,
    t = set_spawned (spawned t ++ map HandleClient (seq (fresh t) 0))
                    (set_fresh (fresh t + 0) t)).
  { intros t. simpl. rewrite app_nil_r, Nat.add_0_r. now destruct t. }
  induction script as [|ev script IH]; intros t l Hr He Hs Hc.
  - simpl. unfold bind, get. rewrite Hr. simpl. split; [reflexivity | apply Hsame].
  - rewrite accept_loop_cons, Hr, (accept_iteration_open ev t l Hs Hc He).
    destruct ev; cbn [accept_answer accept_end admitted].
    + assert (Hc' : is_closed l (after_accept Accepted t) = false).
      { unfold after_accept. rewrite Hs, Hc, He. exact Hc. }
      destruct (IH (after_accept Accepted t) l) as [Hret Hst];
        try (unfold after_accept; rewrite Hs, Hc, He; assumption).
      split; [exact Hret |]. rewrite Hst.
      unfold after_accept. rewrite Hs, Hc, He. simpl.
      unfold set_spawned, set_fresh. simpl.
      rewrite <- app_assoc, Nat.add_succ_r. reflexivity.
    + destruct (IH t l Hr He Hs Hc) as [Hret Hst].
      unfold after_accept. rewrite Hs, Hc. split; [exact Hret | exact Hst].
    + unfold after_accept. rewrite Hs, Hc. simpl.
      split; [reflexivity | apply Hsame].
    + unfold after_accept. rewrite Hs, Hc. simpl.
      split; [reflexivity | apply Hsame].
Qed.

Lemma accept_end_raises script e :
  accept_end script = Raise e -> e = KeyboardInterrupt /\ In AcceptInterrupt script.
Proof.
  induction script as [|ev script IH]; simpl; [discriminate |].
  destruct ev.
  - intros H. destruct (IH H). split; [assumption | now right].
  - intros H. destruct (IH H). split; [assumption | now right].
  - discriminate.
  - intros H. inversion H. split; [reflexivity | now left].
Qed.

(** X7. On a running bridge [start_tcp_server] lets no [Exception]
    out: it returns, unless a [KeyboardInterrupt] reached [accept],
    which the two [except Exception] clauses do not catch and which
    then leaves the function.  Either way it never touches
    [self.clients], nor any socket or the trace: it makes the listener
    (a new socket) and then one [handle_client] task for each connection
    accepted before the first accept error or interrupt, each for a new
    socket, in the order they came; timeouts count for nothing and what
    comes after the error is not accepted. *)
Theorem start_tcp_server_one_task_per_accept (script : list accept_event)
    (t : State) :
  running t = true ->
  event_loop t = true ->
  ~ In (Socket (fresh t)) (released t) ->
  let t' := exec (start_tcp_server true script) t in
  result (start_tcp_server true script) t = accept_end script /\
  (forall e, result (start_tcp_server true script) t = Raise e ->
             e = KeyboardInterrupt /\ In AcceptInterrupt script) /\
  server_socket t' = Some (fresh t) /\
  spawned t' =
    spawned t ++ map HandleClient (seq (S (fresh t)) (admitted script)) /\
  fresh t' = S (fresh t) + admitted script /\
  clients t' = clients t /\ released t' = released t /\ trace t' = trace t.
Proof.
  intros Hr He Hn t'. subst t'.
  set (t0 := set_fresh (S (fresh t)) (set_server_socket (Some (fresh t)) t)).
  assert (Hc : is_closed (fresh t) t0 = false) by now apply is_closed_false.
  destruct (accept_loop_spawns script t0 (fresh t) Hr He eq_refl Hc)
    as [Hret Hst].
  assert (Hres : result (start_tcp_server true script) t = accept_end script).
  { unfold result, start_tcp_server, try_except, bind. rewrite listen_eq.
    fold t0. destruct (accept_loop script t0) as [o t1]. simpl in Hret. subst o.
    destruct (accept_end script) as [r|e] eqn:E; [reflexivity |].
    destruct (accept_end_raises script e E) as [-> _]. reflexivity. }
  split; [exact Hres |]. split.
  { intros e H. rewrite Hres in H. now apply accept_end_raises. }
  unfold start_tcp_server. rewrite exec_except_Exception.
  unfold exec, bind. rewrite listen_eq. fold t0.
  destruct (accept_loop script t0) as [o t1]. simpl in Hst. subst t1.
  simpl. repeat split.
Qed.

Lemma start_tcp_server_one_task_per_accept_witness :
  spawned (exec (start_tcp_server true
                   [Accepted; AcceptTimeout; Accepted; AcceptInterrupt; Accepted])
                running_state)
    = [HandleClient 6; HandleClient 7] /\
  result (start_tcp_server true
            [Accepted; AcceptTimeout; Accepted; AcceptInterrupt; Accepted])
         running_state
    = Raise KeyboardInterrupt.
Proof.
  pose proof (start_tcp_server_one_task_per_accept
                [Accepted; AcceptTimeout; Accepted; AcceptInterrupt; Accepted]
                running_state eq_refl eq_refl (fun H => H)) as A.
  cbv zeta in A. split.
  - exact (proj1 (proj2 (proj2 (proj2 A)))).
  - exact (proj1 A).
Defined.

(** X8. When [bind] fails, or when the bridge is not running,
    [start_tcp_server] returns without accepting anything: no task is
    made whatever waits to be accepted.  The socket it made is set as
    [self.server_socket] and is left as it was, not closed; it is
    [stop_bridge] that closes it. *)
Theorem listener_without_accepts (bind_ok : bool) (script : list accept_event)
    (t : State) :
  bind_ok = false \/ running t = false ->
  let t' := exec (start_tcp_server bind_ok script) t in
  result (start_tcp_server bind_ok script) t = Ret Exited /\
  t' = set_fresh (S (fresh t)) (set_server_socket (Some (fresh t)) t) /\
  is_closed (fresh t) t' = is_closed (fresh t) t /\
  is_closed (fresh t) (exec stop_bridge t') = true.
Proof.
  intros H t'. subst t'.
  assert (E : start_tcp_server bind_ok script t =
              (Ret Exited, set_fresh (S (fresh t))
                             (set_server_socket (Some (fresh t)) t))).
  { unfold start_tcp_server, try_except, bind. rewrite listen_eq.
    destruct bind_ok; [| reflexivity].
    destruct H as [H|H]; [discriminate |].
    destruct script; simpl; unfold bind, get; simpl; now rewrite H. }
  unfold exec, result. rewrite E. simpl.
  split; [reflexivity |]. split; [reflexivity |]. split; [reflexivity |].
  rewrite stop_bridge_eq. simpl. apply stop_state_stopped.
  now rewrite stop_state_server_socket.
Qed.

Lemma listener_without_accepts_witness :
  spawned (exec (start_tcp_server false [Accepted; Accepted]) running_state) = [] /\
  is_closed 5 (exec (start_tcp_server false [Accepted; Accepted]) running_state)
    = false /\
  is_closed 5 (exec stop_bridge
                 (exec (start_tcp_server false [Accepted; Accepted]) running_state))
    = true.
Proof.
  destruct (listener_without_accepts false [Accepted; Accepted] running_state
              (or_introl eq_refl)) as [_ [E [C S]]].
  split; [now rewrite E |]. split; [exact (eq_trans C eq_refl) | exact S].
Defined.

(** ** What [stop_bridge] does not do *)

Lemma close_state_frame c t :
  close_state c t = set_released (released (close_state c t)) t.
Proof.
  unfold close_state. destruct (is_closed c t); [| reflexivity].
  symmetry. apply set_released_same.
Qed.

(** [stop_bridge] changes four things: the running flag, the released
    descriptors, [self.clients] and the created tasks. *)
Lemma stop_state_shape s :
  stop_state s =
  set_spawned
    (spawned s ++ match websocket s with
                  | Some _ => if event_loop s then [WebsocketClose] else []
                  | None => []
                  end)
    (set_clients [] (set_released (released (stop_state s)) (set_running false s))).
Proof.
  unfold stop_state.
  set (s1 := set_running false s).
  set (s2 := match server_socket s1 with
             | Some l => close_state l s1
             | None => s1
             end).
  assert (E2 : s2 = set_released (released s2) s1).
  { subst s2. destruct (server_socket s1).
    - apply close_state_frame.
    - symmetry. apply set_released_same. }
  assert (E3 : close_all (clients s2) s2 =
               set_released (released (close_all (clients s2) s2)) s1).
  { transitivity (set_released (released (close_all (clients s2) s2)) s2);
      [apply close_all_frame |].
    generalize (released (close_all (clients s2) s2)). intros R.
    rewrite E2. reflexivity. }
  set (s4 := set_clients [] (close_all (clients s2) s2)).
  assert (E4 : s4 = set_clients [] (set_released (released s4) s1)).
  { subst s4. rewrite E3 at 1. reflexivity. }
  assert (Hw : websocket s4 = websocket s) by (rewrite E4; reflexivity).
  assert (He : event_loop s4 = event_loop s) by (rewrite E4; reflexivity).
  assert (Hsp : spawned s4 = spawned s) by (rewrite E4; reflexivity).
  rewrite Hw, He. subst s1.
  destruct (websocket s); [destruct (event_loop s) |].
  - rewrite Hsp. rewrite E4 at 1. reflexivity.
  - rewrite app_nil_r. rewrite E4 at 1. now destruct s.
  - rewrite app_nil_r. rewrite E4 at 1. now destruct s.
Qed.

Lemma close_all_released_sockets l t :
  exists extra,
    released (close_all l t) = released t ++ extra /\
    (forall x, In x extra -> exists c, x = Socket c).
Proof.
  destruct (close_all_released l t) as [ex [Hr [_ [Hnew _]]]].
  exists ex. split; [exact Hr |].
  intros x Hx. destruct (Hnew x Hx) as [_ [c [E _]]]. now exists c.
Qed.

Lemma stop_state_released_sockets s :
  exists extra,
    released (stop_state s) = released s ++ extra /\
    (forall x, In x extra -> exists c, x = Socket c).
Proof.
  unfold stop_state.
  set (s2 := match server_socket (set_running false s) with
             | Some l => close_state l (set_running false s)
             | None => set_running false s
             end).
  assert (H2 : exists e2, released s2 = released s ++ e2 /\
                          (forall x, In x e2 -> exists c, x = Socket c)).
  { subst s2. destruct (server_socket (set_running false s)) as [l|].
    - unfold close_state. destruct (is_closed l _); simpl.
      + exists []. rewrite app_nil_r. split; [reflexivity | contradiction].
      + exists [Socket l]. split; [reflexivity |].
        intros x [<-|[]]. now exists l.
    - exists []. simpl. rewrite app_nil_r. split; [reflexivity | contradiction]. }
  destruct H2 as [e2 [R2 S2]].
  destruct (close_all_released_sockets (clients s2) s2) as [e3 [R3 S3]].
  assert (H : exists extra,
            released (set_clients [] (close_all (clients s2) s2)) = released s ++ extra /\
            (forall x, In x extra -> exists c, x = Socket c)).
  { exists (e2 ++ e3). simpl. rewrite R3, R2, app_assoc. split; [reflexivity |].
    intros x Hx. apply in_app_or in Hx. destruct Hx; auto. }
  destruct (websocket _); [destruct (event_loop _) |]; exact H.
Qed.

(** X9. [stop_bridge] never closes the upstream session itself: with a
    connection and a running event loop it creates the task that would
    close it and returns without waiting, otherwise it does nothing
    about it.  It closes sockets only, and it leaves [self.websocket]
    and [self.server_socket] set, so a later call finds them again. *)
Theorem stop_bridge_only_schedules_upstream_close (s : State) :
  let s' := exec stop_bridge s in
  (In Upstream (released s') <-> In Upstream (released s)) /\
  spawned s' =
    spawned s ++ match websocket s with
                 | Some _ => if event_loop s then [WebsocketClose] else []
                 | None => []
                 end /\
  websocket s' = websocket s /\
  server_socket s' = server_socket s /\
  trace s' = trace s.
Proof.
  unfold exec. rewrite stop_bridge_eq. simpl.
  destruct (stop_state_released_sockets s) as [ex [Hr Hs]].
  split.
  - rewrite Hr. split.
    + intros H. apply in_app_or in H. destruct H as [H|H]; [exact H |].
      destruct (Hs _ H) as [c Hc]. discriminate.
    + intros H. apply in_or_app. now left.
  - rewrite stop_state_shape. simpl. repeat split.
Qed.

(** X10. Once [stop_bridge] has run, nothing is served any more:
    [websocket_forwarder] and the accept loop return at once without
    looking at what arrives, and a [handle_client] that starts only now
    reads nothing, forwards nothing and closes its socket. *)
Theorem stopped_bridge_serves_nothing (s : State) (upstream : list ws_event)
    (arrivals : list accept_event) (c : sock) (sent : list recv_event) :
  let s1 := exec stop_bridge s in
  websocket_forwarder upstream s1 = (Ret Exited, s1) /\
  accept_loop arrivals s1 = (Ret Exited, s1) /\
  result (handle_client c sent) s1 = Ret Exited /\
  trace (exec (handle_client c sent) s1) = trace s /\
  is_closed c (exec (handle_client c sent) s1) = true.
Proof.
  intros s1.
  assert (Es : s1 = stop_state s) by (unfold s1, exec; now rewrite stop_bridge_eq).
  clearbody s1. subst s1.
  destruct (stop_state_facts s) as [Hcl [Hrun _]].
  assert (Hloop : loop_condition (stop_state s) = false).
  { unfold loop_condition. now rewrite Hrun. }
  assert (Htr : trace (stop_state s) = trace s).
  { rewrite stop_state_shape. reflexivity. }
  split.
  { unfold websocket_forwarder, try_except.
    destruct upstream; simpl; unfold bind, get; now rewrite Hloop. }
  split.
  { destruct arrivals; simpl; unfold bind, get; now rewrite Hrun. }
  assert (Hn : ~ In c (clients (stop_state s))) by (rewrite Hcl; intros []).
  assert (Hread : read_loop c sent (set_clients (clients (stop_state s) ++ [c]) (stop_state s))
                  = (Ret Exited, set_clients (clients (stop_state s) ++ [c]) (stop_state s))).
  { destruct sent; simpl; unfold bind, get;
      change (loop_condition (set_clients (clients (stop_state s) ++ [c]) (stop_state s)))
        with (loop_condition (stop_state s)); now rewrite Hloop. }
  rewrite handle_client_result, handle_client_eq.
  unfold result, after_read_loop. rewrite Hread. simpl.
  destruct (after_cleanup_registered c (stop_state s) (clients (stop_state s))
              (trace (stop_state s)) Hn) as [H1 [H2 _]].
  assert (E : set_trace (trace (stop_state s))
                (set_clients (clients (stop_state s) ++ [c]) (stop_state s)) =
              set_clients (clients (stop_state s) ++ [c]) (stop_state s))
    by now destruct (stop_state s).
  rewrite E in H1, H2.
  destruct (is_closed c (stop_state s)).
  - split; [reflexivity |]. split; [now rewrite H2 | exact H1].
  - split; [reflexivity |]. split; [now rewrite H2 | exact H1].
Qed.

(** ** [main]: exit codes and the connection file *)

Lemma line_value_returns line :
  is_key_line line = true -> exists v, line_value line = Ret (Some v).
Proof.
  intros H. unfold line_value.
  destruct (split_once_first line (is_key_line_has_eq line H))
    as [before [after [_ [_ Hs]]]].
  rewrite Hs. simpl. now eexists.
Qed.

Lemma scan_lines_cons line rest :
  scan_lines (line :: rest) =
  if is_key_line line then line_value line else scan_lines rest.
Proof. reflexivity. Qed.

Lemma scan_lines_returns lines : exists v, scan_lines lines = Ret v.
Proof.
  induction lines as [|line rest IH]; [now eexists |].
  rewrite scan_lines_cons.
  destruct (is_key_line line) eqn:Hk; [| exact IH].
  destruct (line_value_returns line Hk) as [v Hv]. rewrite Hv. now eexists.
Qed.

(** The scan finds nothing exactly when no line holds a key. *)
Lemma scan_lines_nothing lines :
  scan_lines lines = Ret None <->
  Forall (fun l => is_key_line l = false) lines.
Proof.
  split; [| apply scan_lines_none].
  induction lines as [|line rest IH]; [constructor |].
  rewrite scan_lines_cons. destruct (is_key_line line) eqn:Hk.
  - destruct (line_value_returns line Hk) as [v Hv]. rewrite Hv. discriminate.
  - intros H. constructor; [exact Hk | now apply IH].
Qed.

(** When does an exception leave lines 210-219. *)
Lemma discover_raises env file :
  (exists e, fst (discover env file) = Raise e) <->
  truthy env = false /\
  (file = FileError \/
   exists lines, file = FileGarbled lines /\
                 Forall (fun l => is_key_line l = false) lines).
Proof.
  unfold discover. destruct (truthy env).
  { split; [intros [e H]; discriminate | intros [H _]; discriminate]. }
  destruct file as [| |lines|lines]; simpl.
  - split; [intros [e H]; discriminate |].
    intros [_ [H|[l [H _]]]]; discriminate.
  - split; [intros _; split; [reflexivity | now left] | now exists OSError].
  - destruct (scan_lines_returns lines) as [v Hv]. rewrite Hv. split.
    + intros [e H]. destruct v; discriminate.
    + intros [_ [H|[l [H _]]]]; discriminate.
  - destruct (scan_lines_returns lines) as [v Hv]. rewrite Hv. split.
    + intros [e H]. destruct v as [u|]; [discriminate |].
      split; [reflexivity |]. right. exists lines. split; [reflexivity |].
      now apply scan_lines_nothing.
    + intros [_ [H|[l [H Hl]]]]; [discriminate |].
      inversion H; subst l. apply scan_lines_nothing in Hl.
      rewrite Hl in Hv. inversion Hv; subst v. now exists UnicodeDecodeError.
Qed.

(** X12. [main] returns 0 exactly when a URL starting with [wss://] was
    found and [run_bridge] returned [True] or was interrupted from the
    keyboard.  An exception leaves [main] in exactly three cases, all
    without a usable environment value or past the scheme test: opening
    the file fails otherwise than by the file not being there; reading
    it fails before a line with a key was met (only
    [FileNotFoundError] is caught, line 218); or [run_bridge] is left by
    something that is neither a [KeyboardInterrupt] nor an [Exception],
    as a cancellation is.  The index [1] of line 216 cannot fail: a line
    that passes the test of line 215 has an [=].  In every other case
    [main] returns 1.  And whenever a connection was attempted,
    [stop_bridge] has run, the [finally] block not depending on how
    [run_bridge] ended. *)
Theorem main_exit_codes (env : option string) (file : conn_file)
    (run : run_outcome) :
  (exit_code (main env file run) = Some 0 <->
   exists u, fst (discover env file) = Ret (Some u) /\
             String.prefix "wss://"%string u = true /\
             (run = Returned true \/ run = Interrupted)) /\
  (exit_code (main env file run) = None <->
   (truthy env = false /\
    (file = FileError \/
     exists lines, file = FileGarbled lines /\
                   Forall (fun l => is_key_line l = false) lines)) \/
   (exists u, fst (discover env file) = Ret (Some u) /\
              String.prefix "wss://"%string u = true /\
              run = Cancelled)) /\
  (exit_code (main env file run) = Some 0 \/
   exit_code (main env file run) = Some 1 \/
   exit_code (main env file run) = None) /\
  (forall u, In (Connect u) (events (main env file run)) ->
             In Stop (events (main env file run))).
Proof.
  pose proof (discover_raises env file) as Hd.
  assert (Hev : forall u, ~ In (Connect u) (snd (discover env file))).
  { intros u. unfold discover. destruct (truthy env); [intros [] |].
    destruct file; simpl; intros [H|[]]; discriminate. }
  unfold main. destruct (discover env file) as [r evs].
  cbn [fst snd] in *. destruct r as [v|e]; cbv beta iota.
  - assert (Hno : ~ (truthy env = false /\
                     (file = FileError \/
                      exists lines, file = FileGarbled lines /\
                        Forall (fun l => is_key_line l = false) lines))).
    { intros H. apply Hd in H. destruct H as [e H]. discriminate. }
    destruct v as [[|a u]|]; cbv beta iota.
    + cbn [exit_code events]. split; [| split; [| split]].
      * split; [discriminate |].
        intros [u [H [Hp _]]]. inversion H; subst. discriminate.
      * split; [discriminate |].
        intros [H|[u [H [Hp _]]]]; [contradiction |].
        inversion H; subst. discriminate.
      * auto.
      * intros u H. now apply Hev in H.
    + destruct (String.prefix "wss://"%string (String a u)) eqn:Hp;
        cbn [exit_code events]; (split; [| split; [| split]]).
      * split.
        -- intros H. exists (String a u). split; [reflexivity |].
           split; [exact Hp |].
           destruct run as [[|]| | |]; try discriminate H;
             [left | right]; reflexivity.
        -- intros [u' [E [_ [->| ->]]]]; reflexivity.
      * split.
        -- intros H. right. exists (String a u). split; [reflexivity |].
           split; [exact Hp |].
           destruct run as [[|]| | |]; try discriminate H. reflexivity.
        -- intros [H|[u' [E [_ ->]]]]; [contradiction | reflexivity].
      * destruct run as [[|]| | |]; auto.
      * intros u' _. apply in_or_app. right. right. now left.
      * split; [discriminate |].
        intros [u' [E [Hp' _]]]. inversion E; subst. congruence.
      * split; [discriminate |].
        intros [H|[u' [E [Hp' _]]]]; [contradiction |].
        inversion E; subst. congruence.
      * auto.
      * intros u' H. now apply Hev in H.
    + cbn [exit_code events]. split; [| split; [| split]].
      * split; [discriminate | intros [u [H _]]; discriminate].
      * split; [discriminate |].
        intros [H|[u [H _]]]; [contradiction | discriminate].
      * auto.
      * intros u H. now apply Hev in H.
  - cbn [exit_code events]. split; [| split; [| split]].
    + split; [discriminate | intros [u [H _]]; discriminate].
    + split; [intros _; left; apply Hd; now exists e | reflexivity].
    + auto.
    + intros u H. now apply Hev in H.
Qed.

(** X13. The first line that holds a key decides even when its value
    is empty: lines after it are not looked at, so [main] returns 1
    without connecting although a later line may hold a good URL. *)
Theorem empty_first_key_line_hides_the_rest (env : option string)
    (pre post : list string) (line : string) (run : run_outcome) :
  truthy env = false ->
  Forall (fun l => is_key_line l = false) pre ->
  is_key_line line = true ->
  line_value line = Ret (Some EmptyString) ->
  exit_code (main env (FileLines (pre ++ line :: post)) run) = Some 1 /\
  events (main env (FileLines (pre ++ line :: post)) run) = [OpenFile].
Proof.
  intros He Hpre Hk Hv. unfold main, discover. rewrite He.
  rewrite (scan_lines_skip pre _ Hpre), scan_lines_cons, Hk, Hv.
  simpl. now split.
Qed.

Lemma empty_first_key_line_hides_the_rest_witness :
  exit_code (main None (FileLines empty_first_file) (Returned true)) = Some 1 /\
  exit_code (main None (FileLines (tl empty_first_file)) (Returned true)) = Some 0.
Proof.
  split.
  - apply (empty_first_key_line_hides_the_rest None [] (tl empty_first_file)
             "publicAdbUrl="%string (Returned true));
      [reflexivity | constructor | vm_compute; reflexivity | vm_compute; reflexivity].
  - vm_compute. reflexivity.
Defined.

Lemma lstrip_first p s : first_is p s = false -> lstrip p s = s.
Proof. destruct s; simpl; [reflexivity |]. now intros ->. Qed.

Lemma rstrip_last p s : last_is p s = false -> rstrip p s = s.
Proof.
  induction s as [|a s IH]; [reflexivity |].
  destruct s as [|b s].
  - simpl. now intros ->.
  - intros H. change (last_is p (String a (String b s))) with (last_is p (String b s)) in H.
    change (rstrip p (String a (String b s)))
      with (match rstrip p (String b s) with
            | EmptyString => if p a then EmptyString else String a EmptyString
            | r => String a r
            end).
    now rewrite (IH H).
Qed.

Lemma rstrip_snoc_true p c s :
  p c = true -> rstrip p (s ++ String c EmptyString) = rstrip p s.
Proof.
  intros Hc. induction s as [|a s IH]; simpl.
  - now rewrite Hc.
  - now rewrite IH.
Qed.

Lemma rstrip_snoc_false p c s :
  p c = false ->
  rstrip p (s ++ String c EmptyString) = (s ++ String c EmptyString)%string.
Proof.
  intros Hc. induction s as [|a s IH]; simpl.
  - now rewrite Hc.
  - rewrite IH. now destruct s.
Qed.

Lemma append_snoc2 s a b :
  (s ++ String a (String b EmptyString))%string =
  ((s ++ String a EmptyString) ++ String b EmptyString)%string.
Proof. induction s as [|c s IH]; simpl; [reflexivity | now rewrite IH]. Qed.

Lemma split_once_app sep before after :
  has_char sep before = false ->
  split_once sep (before ++ String sep after) = [before; after].
Proof.
  induction before as [|c before IH]; simpl; intros H.
  - now rewrite Ascii.eqb_refl.
  - apply orb_false_iff in H. destruct H as [Hc Hb].
    now rewrite Hc, (IH Hb).
Qed.

Lemma prefix_append needle rest :
  String.prefix needle (needle ++ rest) = true.
Proof.
  induction needle as [|a needle IH]; simpl.
  - now destruct rest.
  - destruct (ascii_dec a a); [exact IH | congruence].
Qed.

Lemma contains_append needle rest : contains needle (needle ++ rest) = true.
Proof.
  pose proof (prefix_append needle rest) as H.
  destruct (needle ++ rest)%string as [|c h].
  - change (contains needle EmptyString)
      with (String.prefix needle EmptyString || false).
    now rewrite H.
  - change (contains needle (String c h))
      with (String.prefix needle (String c h) || contains needle h).
    now rewrite H.
Qed.

(** The value line 216 reads from [KEY="url"]. *)
Lemma quoted_value url :
  first_is is_quote url = false -> last_is is_quote url = false ->
  strip_quotes (strip (String "034"%char
    (url ++ String "034"%char (String "010"%char EmptyString)))) = url.
Proof.
  intros Hf Hl. unfold strip.
  rewrite lstrip_first by reflexivity.
  rewrite append_snoc2.
  change (String "034"%char ((url ++ String "034"%char EmptyString)
                               ++ String "010"%char EmptyString))%string
    with ((String "034"%char (url ++ String "034"%char EmptyString))
            ++ String "010"%char EmptyString)%string.
  rewrite rstrip_snoc_true by reflexivity.
  change (String "034"%char (url ++ String "034"%char EmptyString))%string
    with ((String "034"%char url) ++ String "034"%char EmptyString)%string.
  rewrite rstrip_snoc_false by reflexivity.
  unfold strip_quotes. fold is_quote. simpl.
  destruct url as [|a u]; [reflexivity |].
  simpl in Hf. change (lstrip is_quote (String a u ++ String "034"%char EmptyString))
    with (if is_quote a then lstrip is_quote (u ++ String "034"%char EmptyString)
          else (String a u ++ String "034"%char EmptyString)%string).
  rewrite Hf, rstrip_snoc_true by reflexivity. now apply rstrip_last.
Qed.

(** X14. A connection file read back: when the first line is
    [KEY="url"], with either key and a URL that neither begins nor ends
    with a double quote (it may hold [=] signs and blanks), the URL found
    is that URL exactly, whatever lines follow; and if it starts with
    [wss://] that is the one URL [main] connects to, stopping the bridge
    afterwards. *)
Theorem key_line_round_trip (key url : string) (rest : list string)
    (run : run_outcome) :
  key = "GENYMOTION_ADB_URL"%string \/ key = "publicAdbUrl"%string ->
  first_is is_quote url = false ->
  last_is is_quote url = false ->
  discover None (FileLines (quoted_line key url :: rest)) =
    (Ret (Some url), [OpenFile]) /\
  (String.prefix "wss://"%string url = true ->
   events (main None (FileLines (quoted_line key url :: rest)) run) =
     [OpenFile; Connect url; Stop]).
Proof.
  intros Hkey Hf Hl.
  assert (Hk : is_key_line (quoted_line key url) = true).
  { unfold is_key_line, quoted_line. destruct Hkey as [-> | ->].
    - change ("GENYMOTION_ADB_URL" ++ String "="%char ?x)%string
        with ("GENYMOTION_ADB_URL=" ++ x)%string.
      now rewrite contains_append.
    - change ("publicAdbUrl" ++ String "="%char ?x)%string
        with ("publicAdbUrl=" ++ x)%string.
      rewrite (contains_append "publicAdbUrl="%string). apply orb_true_r. }
  assert (Hs : split_once "="%char (quoted_line key url) =
               [key; String "034"%char
                  (url ++ String "034"%char (String "010"%char EmptyString))]).
  { unfold quoted_line. apply split_once_app.
    destruct Hkey as [-> | ->]; reflexivity. }
  assert (Hd : discover None (FileLines (quoted_line key url :: rest)) =
               (Ret (Some url), [OpenFile])).
  { unfold discover. cbn [truthy]. rewrite scan_lines_cons, Hk.
    unfold line_value. rewrite Hs.
    cbn [nth_error]. now rewrite (quoted_value url Hf Hl). }
  split; [exact Hd |].
  intros Hp. unfold main. rewrite Hd.
  destruct url as [|a u]; [discriminate |]. now rewrite Hp.
Qed.

Lemma key_line_round_trip_witness :
  discover None (FileLines
    [quoted_line "publicAdbUrl"%string "wss://device/adb?token=a=b"%string;
     "GENYMOTION_ADB_URL=wss://other/adb"%string]) =
  (Ret (Some "wss://device/adb?token=a=b"%string), [OpenFile]).
Proof.
  exact (proj1 (key_line_round_trip "publicAdbUrl"%string
                  "wss://device/adb?token=a=b"%string
                  ["GENYMOTION_ADB_URL=wss://other/adb"%string] (Returned true)
                  (or_intror eq_refl) eq_refl eq_refl)).
Defined.

(** ** Delivery in order *)

Lemma websocket_forwarder_exec script t :
  exec (websocket_forwarder script) t = exec (forwarder_loop script) t.
Proof. apply exec_except_Exception. Qed.

Lemma after_write_condition message wr c t :
  loop_condition (after_write message wr c t) = loop_condition t.
Proof.
  unfold after_write. destruct (write_fails t wr c); [| reflexivity].
  destruct (list_remove c (clients t)); [| reflexivity].
  now destruct (is_closed c t).
Qed.

Lemma fan_out_condition message wr t :
  loop_condition (exec (fan_out message wr) t) = loop_condition t.
Proof.
  unfold exec, fan_out, bind, get. rewrite for_each_forward. simpl.
  generalize (clients t) as l. intros l. revert t.
  induction l as [|c l IH]; intros t; simpl; [reflexivity |].
  now rewrite IH, after_write_condition.
Qed.

(** X2. A client that is registered with an open socket, and whose
    socket takes every message whole, is given the upstream messages
    exactly, one after the other in the order they arrived, up to the
    event that ends the forwarder's loop; what the other clients'
    sockets do, failing or not, makes no difference to it, and
    timeouts in between do not show. *)
Theorem forwarder_delivers_in_order (c : sock) (script : list ws_event)
    (t : State) :
  NoDup (clients t) ->
  In c (clients t) ->
  is_closed c t = false ->
  loop_condition t = true ->
  Forall (takes_whole c) script ->
  client_received c (trace (exec (websocket_forwarder script) t)) =
    client_received c (trace t) ++ fanned script.
Proof.
  rewrite websocket_forwarder_exec. unfold exec. revert t.
  induction script as [|ev script IH]; intros t Hnd Hin Hc Hl Hall.
  - simpl. unfold bind, get. rewrite Hl. simpl. now rewrite app_nil_r.
  - rewrite forwarder_loop_cons, Hl.
    inversion Hall as [|? ? Hev Hrest]; subst.
    destruct ev as [message wr| | | |]; simpl; try now rewrite app_nil_r.
    + destruct Hev as [k [Hw Hk]].
      destruct (fan_out_facts message wr t) as [Hcl [_ Hrel]].
      assert (Hok : write_fails t wr c = false).
      { unfold write_fails. now rewrite Hc, Hw. }
      rewrite IH; try assumption.
      * rewrite (fan_out_whole_writes message wr t c Hnd Hin); [| now exists k | assumption].
        now rewrite <- app_assoc.
      * rewrite Hcl. now apply NoDup_filter.
      * rewrite Hcl. apply filter_In. split; [exact Hin | now rewrite Hok].
      * apply is_closed_false. intros Hx. apply Hrel in Hx.
        destruct Hx as [Hx|[c' [E [_ Hf]]]].
        -- now apply is_closed_false in Hc.
        -- inversion E; subst. congruence.
      * now rewrite fan_out_condition.
    + now apply IH.
Qed.

Lemma forwarder_delivers_in_order_witness :
  client_received 1 (trace (exec (websocket_forwarder sample_upstream) (st two_clients)))
    = [x61; x62; x63] /\
  clients (exec (websocket_forwarder sample_upstream) (st two_clients)) = [1].
Proof.
  split; [| vm_compute; reflexivity].
  assert (Hnd : NoDup (clients (st two_clients))).
  { repeat constructor; simpl; intuition discriminate. }
  assert (Hall : Forall (takes_whole 1) sample_upstream).
  { repeat constructor; simpl; eexists; split; reflexivity || (simpl; lia). }
  exact (forwarder_delivers_in_order 1 sample_upstream (st two_clients) Hnd
           (or_intror (or_introl eq_refl)) eq_refl eq_refl Hall).
Defined.
